(** * Stop-sequence scanning and one-sentence post-processing of [apps/llm_cli.cpp]

  A shallow embedding of the string helpers of the command-line harness
  ([ends_with_any], [trim_at_stop_first_occurrence],
  [find_first_sentence_end_zh], [normalize_one_sentence]) and of the
  generation loop of [main] together with the post-processing that follows
  it, and the properties of these functions.

  A [std::string] is a list of bytes.  A position of type [size_t] is a
  natural number; the value [std::string::npos] returned by a failed search
  is [None].  [npos] is the largest [size_t], so [std::min(npos, p)] is [p];
  this is what [min_npos] and [upd_best] below compute. *)

From Stdlib Require Import ZArith Strings.Byte Strings.String.
From stdpp Require Import list.

Abbreviation bytes := (list byte).

#[global] Instance byte_eq_decision : EqDecision byte := byte_eq_dec.

(** A string literal of the source, as the bytes of its UTF-8 encoding. *)
Definition lit (s : string) : bytes := list_byte_of_string s.

(** ** [std::string] primitives *)

Module Str.

Definition CR : byte := x0d.
Definition LF : byte := x0a.
Definition TAB : byte := x09.
Definition SP : byte := x20.
Definition NUL : byte := x00.

(** [t] is equal to the [t.size()] bytes of [s] at offset 0. *)
Fixpoint starts_with (t s : bytes) : bool :=
  match t, s with
  | [], _ => true
  | _ :: _, [] => false
  | a :: t', b :: s' => Byte.eqb a b && starts_with t' s'
  end.

(** [s.find(t)]: the least offset at which [t] occurs in [s]. *)
Fixpoint find (s t : bytes) {struct s} : option nat :=
  if starts_with t s then Some 0
  else match s with
       | [] => None
       | _ :: s' => S <$> find s' t
       end.

(** [s.find(c)] for a single character. *)
Fixpoint find_char (s : bytes) (c : byte) : option nat :=
  match s with
  | [] => None
  | b :: s' => if Byte.eqb b c then Some 0 else S <$> find_char s' c
  end.

(** [s.compare(pos, len, t) == 0]. *)
Definition compare_eq (s : bytes) (pos len : nat) (t : bytes) : bool :=
  bool_decide (take len (drop pos s) = t).

(** [s.resize(n)]: truncates, or pads with zero bytes. *)
Definition resize (s : bytes) (n : nat) : bytes := list.resize n NUL s.

(** [s.substr(p)] for [p <= s.size()]. *)
Definition substr (s : bytes) (p : nat) : bytes := drop p s.

Definition empty (s : bytes) : bool :=
  match s with [] => true | _ => false end.

End Str.

(** ** The stop sequence detector *)

Fixpoint ends_with_any (s : bytes) (stops : list bytes) : bool :=
  match stops with
  | [] => false
  | t :: rest =>
      if Str.empty t then ends_with_any s rest
      else if (length t <=? length s)
              && Str.compare_eq s (length s - length t) (length t) t
      then true
      else ends_with_any s rest
  end.

(** [std::min(cut, pos)] where [cut] may be [npos]. *)
Definition min_npos (cut : option nat) (pos : nat) : option nat :=
  match cut with
  | None => Some pos
  | Some c => Some (c `min` pos)
  end.

(** The [for] loop of [trim_at_stop_first_occurrence], with the running
    value of [cut]. *)
Fixpoint trim_scan (s : bytes) (stops : list bytes) (cut : option nat)
  : option nat :=
  match stops with
  | [] => cut
  | t :: rest =>
      if Str.empty t then trim_scan s rest cut
      else match Str.find s t with
           | Some pos => trim_scan s rest (min_npos cut pos)
           | None => trim_scan s rest cut
           end
  end.

Definition trim_at_stop_first_occurrence (s : bytes) (stops : list bytes)
  : bytes :=
  match trim_scan s stops None with
  | Some cut => Str.resize s cut
  | None => s
  end.

(** ** Forcing one sentence *)

(** The static table [ends] of [find_first_sentence_end_zh]. *)
Definition ends : list bytes := [lit "。"; lit "！"; lit "？"].

(** [best = (best == npos) ? v : std::min(best, v)]. *)
Definition upd_best (best : option nat) (v : nat) : option nat :=
  match best with
  | None => Some v
  | Some b => Some (b `min` v)
  end.

Fixpoint scan_ends (s : bytes) (es : list bytes) (best : option nat)
  : option nat :=
  match es with
  | [] => best
  | e :: rest =>
      match Str.find s e with
      | Some p => scan_ends s rest (upd_best best (p + length e))
      | None => scan_ends s rest best
      end
  end.

Definition find_first_sentence_end_zh (s : bytes) : option nat :=
  let best := scan_ends s ends None in
  match Str.find_char s Str.LF with
  | Some nl => upd_best best nl
  | None => best
  end.

Definition is_ws (c : byte) : bool :=
  Byte.eqb c Str.SP || Byte.eqb c Str.TAB || Byte.eqb c Str.LF.

(** [while (!s.empty() && is_ws(s.front())) s.erase(s.begin());] *)
Fixpoint strip_front (s : bytes) : bytes :=
  match s with
  | [] => []
  | c :: s' => if is_ws c then strip_front s' else s
  end.

(** [while (!s.empty() && is_ws(s.back())) s.pop_back();] *)
Definition strip_back (s : bytes) : bytes :=
  reverse (strip_front (reverse s)).

(** [if (c == '\n' || c == '\t') c = ' ';] *)
Definition blank (c : byte) : byte :=
  if Byte.eqb c Str.LF || Byte.eqb c Str.TAB then Str.SP else c.

(** The last loop of [normalize_one_sentence]; [prev_space] is its flag. *)
Fixpoint collapse (prev_space : bool) (s : bytes) : bytes :=
  match s with
  | [] => []
  | c :: s' =>
      let sp := Byte.eqb c Str.SP in
      if sp then
        if prev_space then collapse sp s' else c :: collapse sp s'
      else c :: collapse sp s'
  end.

Definition remove_cr (s : bytes) : bytes :=
  filter (λ c, c ≠ Str.CR) s.

Definition cut_sentence (s : bytes) : bytes :=
  match find_first_sentence_end_zh s with
  | Some cut => Str.resize s cut
  | None => s
  end.

Definition normalize_one_sentence (s : bytes) : bytes :=
  let s1 := remove_cr s in
  let s2 := cut_sentence s1 in
  let s3 := strip_back (strip_front s2) in
  let s4 := blank <$> s3 in
  collapse false s4.

(** ** The generation loop and the end of [main] *)

(** What the inference engine answers in one iteration of the loop: whether
    the sampled token is the end-of-sequence token, the return value [nb] of
    [llama_token_to_piece] with the contents of [buf], and the return value
    of [llama_decode]. *)
Record sample := Sample {
  tok_is_eos : bool;
  piece_nb : Z;
  piece_buf : bytes;
  decode_rc : Z;
}.

(** The fragment that an iteration appends to [out]:
    [out.append(buf, buf + nb)]. *)
Definition fragment (smp : sample) : bytes :=
  take (Z.to_nat (piece_nb smp)) (piece_buf smp).

(** The engine as the loop sees it: its answers, by iteration. *)
Definition engine := nat → sample.

(** The stop list that [main] builds. *)
Definition main_stops : list bytes :=
  [ Str.LF :: lit "Human:"; Str.LF :: lit "User:";
    Str.LF :: lit "assistant:"; Str.LF :: lit "Assistant:";
    lit "<|endoftext|>"; lit "</s>"; lit "<|im_end|>"; lit "<|eot_id|>";
    [Str.LF; Str.LF];
    lit "。"; lit "！"; lit "？";
    [Str.LF] ].

Definition anchor_key : bytes := lit "LR(0)".

(** [for (int i = 0; i < n_predict; ++i)]: [remaining] is [n_predict - i].
    The result is the value of [i] and of [out] when the loop is left.  The
    batch and [n_cur] only carry the sampled token back to the engine, whose
    answers are given by [eng]. *)
Fixpoint gen_loop (eng : engine) (stops : list bytes)
    (remaining i : nat) (out : bytes) : nat * bytes :=
  match remaining with
  | 0 => (i, out)
  | S r =>
      let smp := eng i in
      if tok_is_eos smp then (i, out)
      else if (piece_nb smp <=? 0)%Z then (i, out)
      else
        let out1 := out ++ fragment smp in
        if ends_with_any out1 stops
        then (i, trim_at_stop_first_occurrence out1 stops)
        else if negb (decode_rc smp =? 0)%Z then (i, out1)
        else gen_loop eng stops r (S i) out1
  end.

(** The statements of [main] after the loop, up to the text that is
    printed between the two banners. *)
Definition postprocess (stops : list bytes) (key : bytes) (out : bytes)
  : bytes :=
  let out1 := trim_at_stop_first_occurrence out stops in
  let out2 := normalize_one_sentence out1 in
  match Str.find out2 key with
  | Some p =>
      if 0 <? p then normalize_one_sentence (Str.substr out2 p) else out2
  | None => out2
  end.

(** The outcome of a run of [main] that reaches its end: the text printed
    between the two banners and the value returned. *)
Record outcome := Outcome {
  printed : bytes;
  exit_code : Z;
}.

(** [(size_t) z], for a [size_t] of 64 bits. *)
Definition to_size_t (z : Z) : Z := z `mod` 2 ^ 64.

(** [(size_t)n_predict * 6], the capacity that [main] asks of
    [out.reserve]. *)
Definition reserve_request (n_predict : Z) : Z :=
  to_size_t (to_size_t n_predict * 6).

(** How a run of [main] ends once the prompt is evaluated: it reaches
    [return 0], or [out.reserve] throws [std::length_error], which nothing
    catches: the program is terminated before the loop. *)
Inductive run :=
| Completes (o : outcome)
| Throws_length_error.

(** [main] from [out.reserve] on.  Modelled from the C++ standard:
    [reserve(n)] throws [std::length_error] when [n > max_size()];
    [max_size] is the constant of the library implementation.  A failed
    allocation is left out. *)
Definition generate (max_size : Z) (eng : engine) (n_predict : Z) : run :=
  if (max_size <? reserve_request n_predict)%Z then Throws_length_error
  else
    let '(_, out) := gen_loop eng main_stops (Z.to_nat n_predict) 0 [] in
    Completes
      {| printed := postprocess main_stops anchor_key out; exit_code := 0 |}.

(** * Vocabulary of the statements *)

(** ** Occurrences of a literal in a string *)

(** [t] occurs in [s] at offset [p]. *)
Definition occurs_at (t s : bytes) (p : nat) : Prop :=
  ∃ pre post, s = pre ++ t ++ post ∧ length pre = p.

(** Some non-empty literal of [stops] occurs in [s] at offset [p]. *)
Definition stop_at (stops : list bytes) (s : bytes) (p : nat) : Prop :=
  ∃ t, t ∈ stops ∧ t ≠ [] ∧ occurs_at t s p.

(** ** Least offsets *)

(** [r] is the least offset satisfying [P], or [None] when there is none. *)
Definition is_least (P : nat → Prop) (r : option nat) : Prop :=
  match r with
  | Some c => P c ∧ ∀ q, P q → c ≤ q
  | None => ∀ q, ¬ P q
  end.

(** ** Sentence ends and white space *)

(** A sentence end of [s] at offset [q]: the end of an occurrence of one of
    the marks of [es], or the offset of a line break. *)
Definition ends_at (es : list bytes) (s : bytes) (q : nat) : Prop :=
  ∃ e p, e ∈ es ∧ occurs_at e s p ∧ q = p + length e.

Definition sentence_end_at (s : bytes) (q : nat) : Prop :=
  ends_at ends s q ∨ occurs_at [Str.LF] s q.

(** No space follows a space in [s]; [prev] tells whether a space precedes
    [s]. *)
Fixpoint single_spaced (prev : bool) (s : bytes) : Prop :=
  match s with
  | [] => True
  | c :: s' =>
      (Byte.eqb c Str.SP = true → prev = false)
      ∧ single_spaced (Byte.eqb c Str.SP) s'
  end.

Definition no_ws_front (s : bytes) : Prop :=
  ∀ c, head s = Some c → is_ws c = false.

Definition no_ws_back (s : bytes) : Prop :=
  ∀ c, last s = Some c → is_ws c = false.

(** ** Marks that the normalizer cannot create *)

(** A mark without white space in it, such as the sentence terminators. *)
Definition solid (e : bytes) : Prop :=
  e ≠ [] ∧ Forall (λ c, is_ws c = false) e.

(** Every occurrence of [e] in [v] is at the very end of [v]. *)
Definition tail_closed (e v : bytes) : Prop :=
  ∀ pre post, v = pre ++ e ++ post → post = [].

(** ** Runs of the generation loop *)

(** The text accumulated by the first [k] iterations. *)
Fixpoint accumulated (eng : engine) (k : nat) : bytes :=
  match k with
  | 0 => []
  | S k' => accumulated eng k' ++ fragment (eng k')
  end.

(** Iteration [i] appends its fragment and goes on to the next one. *)
Definition goes_on (eng : engine) (stops : list bytes) (i : nat) : Prop :=
  tok_is_eos (eng i) = false
  ∧ (0 < piece_nb (eng i))%Z
  ∧ ends_with_any (accumulated eng (S i)) stops = false
  ∧ decode_rc (eng i) = 0%Z.

(** In iteration [k], [llama_token_to_piece] yields no fragment. *)
Definition piece_error (eng : engine) (k : nat) : Prop :=
  tok_is_eos (eng k) = false ∧ (piece_nb (eng k) ≤ 0)%Z.

(** In iteration [k], the fragment is appended and [llama_decode] fails. *)
Definition decode_error (eng : engine) (stops : list bytes) (k : nat) : Prop :=
  tok_is_eos (eng k) = false
  ∧ (0 < piece_nb (eng k))%Z
  ∧ ends_with_any (accumulated eng (S k)) stops = false
  ∧ decode_rc (eng k) ≠ 0%Z.

(** Engines given by a finite script of answers. *)
Definition step_piece (s : string) (rc : Z) : sample :=
  {| tok_is_eos := false; piece_nb := Z.of_nat (length (lit s));
     piece_buf := lit s; decode_rc := rc |}.

Definition step_eos : sample :=
  {| tok_is_eos := true; piece_nb := 0; piece_buf := []; decode_rc := 0 |}.

Definition step_no_piece : sample :=
  {| tok_is_eos := false; piece_nb := 0; piece_buf := []; decode_rc := 0 |}.

Definition script (l : list sample) (last : sample) : engine :=
  λ i, nth i l last.

(** One fragment, then no fragment / a failed decode / end of sequence. *)
Definition eng_piece_error : engine :=
  script [step_piece "x  y" 0] step_no_piece.

Definition eng_decode_error : engine :=
  script [step_piece "x  y" 1] step_no_piece.

Definition eng_clean_stop : engine :=
  script [step_piece "x  y" 0] step_eos.

(** The answer [smp] with a decode step that succeeds. *)
Definition with_decode_ok (smp : sample) : sample :=
  {| tok_is_eos := tok_is_eos smp; piece_nb := piece_nb smp;
     piece_buf := piece_buf smp; decode_rc := 0 |}.

(** A value of [max_size()], for the examples. *)
Definition max_size_example : Z := 2 ^ 62 - 1.

(** The example of the anchor repair. *)
Definition anchor_example : bytes := lit "嗯，好的。LR(0)项目集：一种状态集合。".

Definition anchor_expected : bytes := lit "LR(0)项目集：一种状态集合。".

(** ** Normal forms of the normalizer *)

(** The shape of the strings that [normalize_one_sentence] returns. *)
Definition normal_form (s : bytes) : Prop :=
  (Str.CR ∉ s) ∧ (Str.LF ∉ s) ∧ (Str.TAB ∉ s)
  ∧ (∀ e, e ∈ ends → tail_closed e s)
  ∧ no_ws_front s ∧ no_ws_back s ∧ single_spaced false s.

(** ** More scripted engines *)

(** Three fragments, none of which completes a stop literal. *)
Definition eng_three_pieces : engine :=
  script [step_piece "a" 0; step_piece "b" 0; step_piece "c" 0]
    (step_piece "d" 0).

(** The second fragment completes the stop literal "。". *)
Definition eng_stop_match : engine :=
  script [step_piece "定义" 0; step_piece "。" 0] (step_piece "x" 0).

(** ** The id list of [--ids] *)

(** The exceptions of [std::stoll]. *)
Inductive exn := invalid_argument | out_of_range.

(** A value, or an exception that leaves the function. *)
Inductive result (A : Type) :=
| Ok (a : A)
| Throw (e : exn).

Arguments Ok {A} a.
Arguments Throw {A} e.

Definition result_bind {A B : Type} (r : result A) (k : A → result B)
  : result B :=
  match r with
  | Ok a => k a
  | Throw e => Throw e
  end.

Definition result_map {A B : Type} (f : A → B) (r : result A) : result B :=
  result_bind r (λ a, Ok (f a)).

Definition INT64_MIN : Z := - 2 ^ 63.
Definition INT64_MAX : Z := 2 ^ 63 - 1.

Definition in_int64 (z : Z) : Prop := (INT64_MIN ≤ z ≤ INT64_MAX)%Z.

(** [isspace] and [isdigit] of the C locale. *)
Definition isspace (c : byte) : bool :=
  Byte.eqb c x20 || Byte.eqb c x09 || Byte.eqb c x0a
  || Byte.eqb c x0b || Byte.eqb c x0c || Byte.eqb c x0d.

Definition isdigit (c : byte) : bool :=
  (48 <=? Byte.to_N c)%N && (Byte.to_N c <=? 57)%N.

Definition digit_value (c : byte) : Z := Z.of_N (Byte.to_N c) - 48.

Fixpoint skip_space (s : bytes) : bytes :=
  match s with
  | [] => []
  | c :: r => if isspace c then skip_space r else s
  end.

(** The value of the digits that [s] starts with, after the value [acc]
    of the digits read so far. *)
Fixpoint digits_value (acc : Z) (s : bytes) : Z :=
  match s with
  | [] => acc
  | c :: r =>
      if isdigit c then digits_value (acc * 10 + digit_value c) r else acc
  end.

(** Modelled from the C++ standard: [std::stoll(cur)] calls [strtoll] in
    base 10: white space is skipped, then an optional sign and the longest
    run of digits are read and what follows is ignored; it throws
    [invalid_argument] when there is no digit to read and [out_of_range]
    when the value does not fit in 64 bits. *)
Definition stoll (cur : bytes) : result Z :=
  let s1 := skip_space cur in
  let '(neg, s2) :=
    match s1 with
    | c :: r =>
        if Byte.eqb c "-" then (true, r)
        else if Byte.eqb c "+" then (false, r)
        else (false, s1)
    | [] => (false, s1)
    end in
  match s2 with
  | c :: _ =>
      if isdigit c then
        let v := digits_value 0 s2 in
        let z := if neg then (- v)%Z else v in
        if (INT64_MIN <=? z)%Z && (z <=? INT64_MAX)%Z
        then Ok z else Throw out_of_range
      else Throw invalid_argument
  | [] => Throw invalid_argument
  end.

(** [ch == ',' || ch == ';' || ch == ' '] *)
Definition is_sep (ch : byte) : bool :=
  Byte.eqb ch "," || Byte.eqb ch ";" || Byte.eqb ch " ".

(** The loop of [parse_ids_csv] over the rest [s] of the string, with the
    ids found so far and the pending token [cur], and the statement after
    the loop. *)
Fixpoint parse_ids_loop (s : bytes) (ids : list Z) (cur : bytes)
  : result (list Z) :=
  match s with
  | [] =>
      if negb (Str.empty cur)
      then result_bind (stoll cur) (λ v, Ok (ids ++ [v]))
      else Ok ids
  | ch :: s' =>
      if is_sep ch then
        if negb (Str.empty cur)
        then result_bind (stoll cur) (λ v, parse_ids_loop s' (ids ++ [v]) [])
        else parse_ids_loop s' ids cur
      else parse_ids_loop s' ids (cur ++ [ch])
  end.

Definition parse_ids_csv (s : bytes) : result (list Z) :=
  parse_ids_loop s [] [].

(** ** Printing a 64-bit integer *)

Definition digit_char (d : Z) : byte :=
  match Byte.of_N (Z.to_N (48 + d)) with
  | Some b => b
  | None => x30
  end.

(** The decimal digits of [n >= 0], most significant first, before
    [acc]. *)
Fixpoint show_digits (fuel : nat) (n : Z) (acc : bytes) : bytes :=
  match fuel with
  | 0 => acc
  | S f =>
      let acc' := digit_char (n `mod` 10) :: acc in
      if (n <? 10)%Z then acc' else show_digits f (n `div` 10) acc'
  end.

Definition show_nat (n : Z) : bytes :=
  show_digits (S (Z.to_nat (Z.log2 n))) n [].

(** Modelled from the C++ standard: [os << id] for an [int64_t] with the
    default flags writes the value in decimal, with a minus sign when it is
    negative. *)
Definition show_int64 (z : Z) : bytes :=
  if (z <? 0)%Z then "-"%byte :: show_nat (- z) else show_nat z.

(** The ids [ids] written in decimal with [sep] between them, as on the
    command line. *)
Fixpoint join_ids (sep : byte) (ids : list Z) : bytes :=
  match ids with
  | [] => []
  | [z] => show_int64 z
  | z :: rest => show_int64 z ++ sep :: join_ids sep rest
  end.

(** The text [r] does not go on with a digit. *)
Definition no_digit_ahead (r : bytes) : Prop :=
  match r with
  | [] => True
  | c :: _ => isdigit c = false
  end.

(** ** The evidence loader *)

(** A [std::string] read through [c_str()] as a C string: its bytes before
    the first zero byte. *)
Fixpoint c_str (s : bytes) : bytes :=
  match s with
  | [] => []
  | c :: r => if Byte.eqb c Str.NUL then [] else c :: c_str r
  end.

(** The SQLite library as the loader sees it: whether [sqlite3_open]
    succeeds on a path, whether [sqlite3_prepare_v2] succeeds on a
    statement, and the rows that the calls of [sqlite3_step] deliver for
    the bound ids before the first answer other than [SQLITE_ROW]; a row is
    its column 0 read as an integer and its column 1 read as text, [None]
    when [sqlite3_column_text] returns a null pointer. *)
Record sqlite := Sqlite {
  db_open : bytes → bool;
  db_prepare : bytes → bytes → bool;
  db_rows : bytes → bytes → list Z → list (Z * option bytes);
}.

(** The loop that writes the placeholders, from index [i] on. *)
Fixpoint placeholders_from (i remaining : nat) (ph : bytes) : bytes :=
  match remaining with
  | 0 => ph
  | S r =>
      placeholders_from (S i) r
        (ph ++ (if (i =? 0)%nat then [] else lit ",") ++ lit "?")
  end.

Definition sql_text (table content_col : bytes) (ids : list Z) : bytes :=
  lit "SELECT id, " ++ content_col ++ lit " FROM " ++ table
  ++ lit " WHERE id IN (" ++ placeholders_from 0 (length ids) [] ++ lit ")".

(** One turn of the [while] loop over the rows. *)
Definition append_row (ctx : bytes) (row : Z * option bytes) : bytes :=
  match row.2 with
  | Some content =>
      ctx ++ lit "[证据#" ++ show_int64 row.1 ++ lit "] " ++ c_str content
      ++ [Str.LF]
  | None => ctx
  end.

Definition load_context_from_sqlite_by_ids (db : sqlite)
    (db_path table content_col : bytes) (ids : list Z) : bytes :=
  match ids with
  | [] => []
  | _ :: _ =>
      if negb (db_open db (c_str db_path)) then []
      else
        let sql := sql_text table content_col ids in
        if negb (db_prepare db (c_str db_path) (c_str sql)) then []
        else foldl append_row [] (db_rows db (c_str db_path) (c_str sql) ids)
  end.

(** ** The command line *)

Module Cli.

(** The conversions of the C library that [main] applies to the values of
    its numeric options, and the two [float] constants of its defaults:
    [atoi] is [std::atoi], [atof] is [std::atof] followed by the conversion
    to [float]. *)
Record numerics := Numerics {
  flt : Type;
  atoi : bytes → Z;
  atof : bytes → flt;
  flt_0_2 : flt;
  flt_0_9 : flt;
}.

(** The local variables of [main] that the options set. *)
Record config (N : numerics) := Config {
  model_path : bytes;
  user_question : bytes;
  context_file : bytes;
  sqlite_db : bytes;
  sqlite_table : bytes;
  sqlite_col : bytes;
  ids_csv : bytes;
  n_predict : Z;
  n_ctx : Z;
  n_batch : Z;
  temp : flt N;
  top_k : Z;
  top_p : flt N;
  seed : Z;
  debug_prompt : bool;
}.

Arguments model_path {N} _.
Arguments user_question {N} _.
Arguments context_file {N} _.
Arguments sqlite_db {N} _.
Arguments sqlite_table {N} _.
Arguments sqlite_col {N} _.
Arguments ids_csv {N} _.
Arguments n_predict {N} _.
Arguments n_ctx {N} _.
Arguments n_batch {N} _.
Arguments temp {N} _.
Arguments top_k {N} _.
Arguments top_p {N} _.
Arguments seed {N} _.
Arguments debug_prompt {N} _.
Arguments Config {N}.

Definition set_model_path {N : numerics} (v : bytes) (c : config N) : config N :=
  {| model_path := v;
     user_question := user_question c;
     context_file := context_file c;
     sqlite_db := sqlite_db c;
     sqlite_table := sqlite_table c;
     sqlite_col := sqlite_col c;
     ids_csv := ids_csv c;
     n_predict := n_predict c;
     n_ctx := n_ctx c;
     n_batch := n_batch c;
     temp := temp c;
     top_k := top_k c;
     top_p := top_p c;
     seed := seed c;
     debug_prompt := debug_prompt c |}.

Definition set_user_question {N : numerics} (v : bytes) (c : config N) : config N :=
  {| model_path := model_path c;
     user_question := v;
     context_file := context_file c;
     sqlite_db := sqlite_db c;
     sqlite_table := sqlite_table c;
     sqlite_col := sqlite_col c;
     ids_csv := ids_csv c;
     n_predict := n_predict c;
     n_ctx := n_ctx c;
     n_batch := n_batch c;
     temp := temp c;
     top_k := top_k c;
     top_p := top_p c;
     seed := seed c;
     debug_prompt := debug_prompt c |}.

Definition set_context_file {N : numerics} (v : bytes) (c : config N) : config N :=
  {| model_path := model_path c;
     user_question := user_question c;
     context_file := v;
     sqlite_db := sqlite_db c;
     sqlite_table := sqlite_table c;
     sqlite_col := sqlite_col c;
     ids_csv := ids_csv c;
     n_predict := n_predict c;
     n_ctx := n_ctx c;
     n_batch := n_batch c;
     temp := temp c;
     top_k := top_k c;
     top_p := top_p c;
     seed := seed c;
     debug_prompt := debug_prompt c |}.

Definition set_sqlite_db {N : numerics} (v : bytes) (c : config N) : config N :=
  {| model_path := model_path c;
     user_question := user_question c;
     context_file := context_file c;
     sqlite_db := v;
     sqlite_table := sqlite_table c;
     sqlite_col := sqlite_col c;
     ids_csv := ids_csv c;
     n_predict := n_predict c;
     n_ctx := n_ctx c;
     n_batch := n_batch c;
     temp := temp c;
     top_k := top_k c;
     top_p := top_p c;
     seed := seed c;
     debug_prompt := debug_prompt c |}.

Definition set_sqlite_table {N : numerics} (v : bytes) (c : config N) : config N :=
  {| model_path := model_path c;
     user_question := user_question c;
     context_file := context_file c;
     sqlite_db := sqlite_db c;
     sqlite_table := v;
     sqlite_col := sqlite_col c;
     ids_csv := ids_csv c;
     n_predict := n_predict c;
     n_ctx := n_ctx c;
     n_batch := n_batch c;
     temp := temp c;
     top_k := top_k c;
     top_p := top_p c;
     seed := seed c;
     debug_prompt := debug_prompt c |}.

Definition set_sqlite_col {N : numerics} (v : bytes) (c : config N) : config N :=
  {| model_path := model_path c;
     user_question := user_question c;
     context_file := context_file c;
     sqlite_db := sqlite_db c;
     sqlite_table := sqlite_table c;
     sqlite_col := v;
     ids_csv := ids_csv c;
     n_predict := n_predict c;
     n_ctx := n_ctx c;
     n_batch := n_batch c;
     temp := temp c;
     top_k := top_k c;
     top_p := top_p c;
     seed := seed c;
     debug_prompt := debug_prompt c |}.

Definition set_ids_csv {N : numerics} (v : bytes) (c : config N) : config N :=
  {| model_path := model_path c;
     user_question := user_question c;
     context_file := context_file c;
     sqlite_db := sqlite_db c;
     sqlite_table := sqlite_table c;
     sqlite_col := sqlite_col c;
     ids_csv := v;
     n_predict := n_predict c;
     n_ctx := n_ctx c;
     n_batch := n_batch c;
     temp := temp c;
     top_k := top_k c;
     top_p := top_p c;
     seed := seed c;
     debug_prompt := debug_prompt c |}.

Definition set_n_predict {N : numerics} (v : Z) (c : config N) : config N :=
  {| model_path := model_path c;
     user_question := user_question c;
     context_file := context_file c;
     sqlite_db := sqlite_db c;
     sqlite_table := sqlite_table c;
     sqlite_col := sqlite_col c;
     ids_csv := ids_csv c;
     n_predict := v;
     n_ctx := n_ctx c;
     n_batch := n_batch c;
     temp := temp c;
     top_k := top_k c;
     top_p := top_p c;
     seed := seed c;
     debug_prompt := debug_prompt c |}.

Definition set_n_ctx {N : numerics} (v : Z) (c : config N) : config N :=
  {| model_path := model_path c;
     user_question := user_question c;
     context_file := context_file c;
     sqlite_db := sqlite_db c;
     sqlite_table := sqlite_table c;
     sqlite_col := sqlite_col c;
     ids_csv := ids_csv c;
     n_predict := n_predict c;
     n_ctx := v;
     n_batch := n_batch c;
     temp := temp c;
     top_k := top_k c;
     top_p := top_p c;
     seed := seed c;
     debug_prompt := debug_prompt c |}.

Definition set_n_batch {N : numerics} (v : Z) (c : config N) : config N :=
  {| model_path := model_path c;
     user_question := user_question c;
     context_file := context_file c;
     sqlite_db := sqlite_db c;
     sqlite_table := sqlite_table c;
     sqlite_col := sqlite_col c;
     ids_csv := ids_csv c;
     n_predict := n_predict c;
     n_ctx := n_ctx c;
     n_batch := v;
     temp := temp c;
     top_k := top_k c;
     top_p := top_p c;
     seed := seed c;
     debug_prompt := debug_prompt c |}.

Definition set_temp {N : numerics} (v : flt N) (c : config N) : config N :=
  {| model_path := model_path c;
     user_question := user_question c;
     context_file := context_file c;
     sqlite_db := sqlite_db c;
     sqlite_table := sqlite_table c;
     sqlite_col := sqlite_col c;
     ids_csv := ids_csv c;
     n_predict := n_predict c;
     n_ctx := n_ctx c;
     n_batch := n_batch c;
     temp := v;
     top_k := top_k c;
     top_p := top_p c;
     seed := seed c;
     debug_prompt := debug_prompt c |}.

Definition set_top_k {N : numerics} (v : Z) (c : config N) : config N :=
  {| model_path := model_path c;
     user_question := user_question c;
     context_file := context_file c;
     sqlite_db := sqlite_db c;
     sqlite_table := sqlite_table c;
     sqlite_col := sqlite_col c;
     ids_csv := ids_csv c;
     n_predict := n_predict c;
     n_ctx := n_ctx c;
     n_batch := n_batch c;
     temp := temp c;
     top_k := v;
     top_p := top_p c;
     seed := seed c;
     debug_prompt := debug_prompt c |}.

Definition set_top_p {N : numerics} (v : flt N) (c : config N) : config N :=
  {| model_path := model_path c;
     user_question := user_question c;
     context_file := context_file c;
     sqlite_db := sqlite_db c;
     sqlite_table := sqlite_table c;
     sqlite_col := sqlite_col c;
     ids_csv := ids_csv c;
     n_predict := n_predict c;
     n_ctx := n_ctx c;
     n_batch := n_batch c;
     temp := temp c;
     top_k := top_k c;
     top_p := v;
     seed := seed c;
     debug_prompt := debug_prompt c |}.

Definition set_seed {N : numerics} (v : Z) (c : config N) : config N :=
  {| model_path := model_path c;
     user_question := user_question c;
     context_file := context_file c;
     sqlite_db := sqlite_db c;
     sqlite_table := sqlite_table c;
     sqlite_col := sqlite_col c;
     ids_csv := ids_csv c;
     n_predict := n_predict c;
     n_ctx := n_ctx c;
     n_batch := n_batch c;
     temp := temp c;
     top_k := top_k c;
     top_p := top_p c;
     seed := v;
     debug_prompt := debug_prompt c |}.

Definition set_debug_prompt {N : numerics} (v : bool) (c : config N) : config N :=
  {| model_path := model_path c;
     user_question := user_question c;
     context_file := context_file c;
     sqlite_db := sqlite_db c;
     sqlite_table := sqlite_table c;
     sqlite_col := sqlite_col c;
     ids_csv := ids_csv c;
     n_predict := n_predict c;
     n_ctx := n_ctx c;
     n_batch := n_batch c;
     temp := temp c;
     top_k := top_k c;
     top_p := top_p c;
     seed := seed c;
     debug_prompt := v |}.

(** The values of the variables before the options are read. *)
Definition default_config (N : numerics) : config N :=
  {| model_path := [];
     user_question := lit "用一句话解释 LR(0) 项目集。";
     context_file := [];
     sqlite_db := [];
     sqlite_table := lit "documents";
     sqlite_col := lit "content";
     ids_csv := [];
     n_predict := 64;
     n_ctx := 2048;
     n_batch := 512;
     temp := flt_0_2 N;
     top_k := 40;
     top_p := flt_0_9 N;
     seed := 42;
     debug_prompt := false |}.

(** [get_arg]: the argument after the current one, when there is one;
    [rest] is what follows [argv[i]]. *)
Definition get_arg (rest : list bytes) : option (bytes * list bytes) :=
  match rest with
  | [] => None
  | v :: rest' => Some (v, rest')
  end.

(** The four shapes of the branches of the option loop: an option with a
    value, named as in the message for a missing value; a flag; the help;
    anything else, which is skipped. *)
Inductive arg_kind (N : numerics) :=
| TakesValue (name : bytes) (set : bytes → config N → config N)
| Flag (set : config N → config N)
| HelpOpt
| Unknown.

Arguments TakesValue {N} name set.
Arguments Flag {N} set.
Arguments HelpOpt {N}.
Arguments Unknown {N}.

(** [a == "..."] *)
Definition arg_is (a : bytes) (s : string) : bool :=
  bool_decide (a = lit s).

(** The chain of [if (a == ...) ... else if ...] of the option loop. *)
Definition classify {N : numerics} (a : bytes) : arg_kind N :=
  if arg_is a "--model" || arg_is a "-m" then
    TakesValue (lit "--model") set_model_path
  else if arg_is a "--prompt" || arg_is a "-p" then
    TakesValue (lit "--prompt") set_user_question
  else if arg_is a "--context-file" then
    TakesValue (lit "--context-file") set_context_file
  else if arg_is a "--db" then TakesValue (lit "--db") set_sqlite_db
  else if arg_is a "--table" then TakesValue (lit "--table") set_sqlite_table
  else if arg_is a "--col" then TakesValue (lit "--col") set_sqlite_col
  else if arg_is a "--ids" then TakesValue (lit "--ids") set_ids_csv
  else if arg_is a "--n" || arg_is a "-n" then
    TakesValue (lit "--n") (λ v, set_n_predict (atoi N v))
  else if arg_is a "--ctx" then
    TakesValue (lit "--ctx") (λ v, set_n_ctx (atoi N v))
  else if arg_is a "--batch" then
    TakesValue (lit "--batch") (λ v, set_n_batch (atoi N v))
  else if arg_is a "--temp" then
    TakesValue (lit "--temp") (λ v, set_temp (atof N v))
  else if arg_is a "--topk" then
    TakesValue (lit "--topk") (λ v, set_top_k (atoi N v))
  else if arg_is a "--topp" then
    TakesValue (lit "--topp") (λ v, set_top_p (atof N v))
  else if arg_is a "--seed" then
    TakesValue (lit "--seed") (λ v, set_seed (atoi N v))
  else if arg_is a "--debug-prompt" then Flag (set_debug_prompt true)
  else if arg_is a "--help" || arg_is a "-h" then HelpOpt
  else Unknown.

(** How the reading of the options ends: with the message
    "Missing value for [name]" and status 2, with the usage text and
    status 0, with "Error: --model is required" and status 2, or with the
    variables set. *)
Inductive arg_outcome (N : numerics) :=
| MissingValue (name : bytes)
| Help
| ModelRequired
| Parsed (c : config N).

Arguments MissingValue {N} name.
Arguments Help {N}.
Arguments ModelRequired {N}.
Arguments Parsed {N} c.

(** The option loop, over [argv[i]], [argv[i + 1]], ...; the call of
    [get_arg] is written out as the [match] on [rest], on which the loop
    recurs. *)
Fixpoint parse_args {N : numerics} (args : list bytes) (c : config N)
  : arg_outcome N :=
  match args with
  | [] => Parsed c
  | a :: rest =>
      match classify a with
      | TakesValue name set =>
          match rest with
          | [] => MissingValue name
          | v :: rest' => parse_args rest' (set v c)
          end
      | Flag set => parse_args rest (set c)
      | HelpOpt => Help
      | Unknown => parse_args rest c
      end
  end.

(** The option loop from [argv[1]] on, and the check that follows it. *)
Definition main_args (N : numerics) (args : list bytes) : arg_outcome N :=
  match parse_args args (default_config N) with
  | Parsed c => if Str.empty (model_path c) then ModelRequired else Parsed c
  | o => o
  end.

(** Numeric conversions that read nothing, for examples. *)
Definition no_numerics : numerics :=
  {| flt := unit; atoi := λ _, 0%Z; atof := λ _, tt;
     flt_0_2 := tt; flt_0_9 := tt |}.

End Cli.

(** ** Occurrences anywhere *)

(** [e] occurs somewhere in [v]. *)
Definition occurs_in (e v : bytes) : Prop := ∃ p, occurs_at e v p.

(** * Properties *)

(** ** Searching in a string *)

Section StrFacts.

Implicit Types (s t : bytes) (p q : nat).

Lemma byte_eqb_eq (a b : byte) : Byte.eqb a b = true ↔ a = b.
Proof. split; [apply byte_dec_bl | apply byte_dec_lb]. Qed.

Lemma byte_eqb_neq (a b : byte) : Byte.eqb a b = false ↔ a ≠ b.
Proof.
  rewrite <- byte_eqb_eq. destruct (Byte.eqb a b); split; congruence.
Qed.

Lemma starts_with_prefix t s : Str.starts_with t s = true ↔ t `prefix_of` s.
Proof.
  revert s. induction t as [|a t IH]; intros [|b s]; simpl.
  - split; [intros _; apply prefix_nil | done].
  - split; [intros _; apply prefix_nil | done].
  - split; [done | intros H; by apply prefix_nil_not in H].
  - rewrite andb_true_iff, byte_eqb_eq, IH. split.
    + intros [-> H]. by apply prefix_cons.
    + intros H. split; [by eapply prefix_cons_inv_1 | by eapply prefix_cons_inv_2].
Qed.

Lemma occurs_at_0 t s : occurs_at t s 0 ↔ t `prefix_of` s.
Proof.
  split.
  - intros (pre & post & -> & Hl). apply nil_length_inv in Hl as ->.
    by exists post.
  - intros [post ->]. by exists [], post.
Qed.

Lemma occurs_at_S t b s p : occurs_at t (b :: s) (S p) ↔ occurs_at t s p.
Proof.
  split.
  - intros (pre & post & Hs & Hl). destruct pre as [|c pre]; [done|].
    simpl in *. injection Hs as -> ->. exists pre, post. split; [done | lia].
  - intros (pre & post & -> & Hl). exists (b :: pre), post. simpl.
    split; [done | lia].
Qed.

Lemma occurs_at_nil t p : t ≠ [] → ¬ occurs_at t [] p.
Proof.
  intros Ht (pre & post & Hs & _). symmetry in Hs.
  apply app_eq_nil in Hs as [_ Hs]. apply app_eq_nil in Hs as [Hs _]. done.
Qed.

Lemma occurs_at_bound t s p : occurs_at t s p → p + length t ≤ length s.
Proof.
  intros (pre & post & -> & <-). rewrite !length_app. lia.
Qed.

Lemma find_Some s t p :
  Str.find s t = Some p → occurs_at t s p ∧ ∀ q, occurs_at t s q → p ≤ q.
Proof.
  revert p. induction s as [|b s IH]; intros p; simpl.
  - destruct (Str.starts_with t []) eqn:E; [|done].
    intros [= <-]. apply starts_with_prefix in E.
    split; [by apply occurs_at_0 | lia].
  - destruct (Str.starts_with t (b :: s)) eqn:E.
    + intros [= <-]. apply starts_with_prefix in E.
      split; [by apply occurs_at_0 | lia].
    + destruct (Str.find s t) as [p'|] eqn:F; [|done].
      intros [= <-]. destruct (IH p' eq_refl) as [H1 H2]. split.
      * by apply occurs_at_S.
      * intros [|q] Hq.
        -- apply occurs_at_0, starts_with_prefix in Hq. congruence.
        -- apply occurs_at_S, H2 in Hq. lia.
Qed.

Lemma find_None s t : Str.find s t = None → ∀ q, ¬ occurs_at t s q.
Proof.
  induction s as [|b s IH]; simpl.
  - destruct (Str.starts_with t []) eqn:E; [done|]. intros _ q Hq.
    assert (q = 0) as ->.
    { apply occurs_at_bound in Hq. simpl in Hq. lia. }
    apply occurs_at_0, starts_with_prefix in Hq. congruence.
  - destruct (Str.starts_with t (b :: s)) eqn:E; [done|].
    destruct (Str.find s t) as [p'|] eqn:F; [done|].
    intros _ [|q] Hq.
    + apply occurs_at_0, starts_with_prefix in Hq. congruence.
    + apply occurs_at_S in Hq. by eapply IH.
Qed.

Lemma find_occurs s t q : occurs_at t s q → ∃ p, Str.find s t = Some p ∧ p ≤ q.
Proof.
  intros Hq. destruct (Str.find s t) as [p|] eqn:F.
  - exists p. split; [done|]. by apply (find_Some _ _ _ F).
  - by apply (find_None _ _ F) in Hq.
Qed.

Lemma resize_le s n : n ≤ length s → Str.resize s n = take n s.
Proof.
  intros H. unfold Str.resize. by rewrite resize_le.
Qed.

Lemma compare_suffix s t :
  length t ≤ length s →
  Str.compare_eq s (length s - length t) (length t) t = true ↔ t `suffix_of` s.
Proof.
  intros Hl. unfold Str.compare_eq. rewrite bool_decide_eq_true. split.
  - intros H. exists (take (length s - length t) s).
    rewrite <- (take_drop (length s - length t) s) at 1. f_equal.
    rewrite <- H at 2. rewrite take_ge; [done|]. rewrite length_drop. lia.
  - intros [k ->]. rewrite length_app.
    replace (length k + length t - length t) with (length k) by lia.
    rewrite drop_app_length. by rewrite take_ge.
Qed.

End StrFacts.

(** ** The stop-sequence matcher and the stop-point trimmer *)

Section Stops.

Implicit Types (s t : bytes) (stops : list bytes) (p q : nat).

Lemma is_least_iff (P Q : nat → Prop) r :
  (∀ p, P p ↔ Q p) → is_least P r → is_least Q r.
Proof.
  intros HPQ. destruct r as [c|]; simpl.
  - intros [H1 H2]. split; [by apply HPQ|]. intros q Hq. by apply H2, HPQ.
  - intros H q Hq. by apply (H q), HPQ.
Qed.

Lemma is_least_unique (P : nat → Prop) r1 r2 :
  is_least P r1 → is_least P r2 → r1 = r2.
Proof.
  destruct r1 as [a|], r2 as [b|]; simpl; try done.
  - intros [Ha1 Ha2] [Hb1 Hb2]. f_equal.
    apply Ha2 in Hb1. apply Hb2 in Ha1. lia.
  - intros [Ha _] H. by apply H in Ha.
  - intros H [Hb _]. by apply H in Hb.
Qed.

Lemma min_npos_least (P Q : nat → Prop) cut pos :
  is_least P cut → is_least Q (Some pos) →
  is_least (λ p, P p ∨ Q p) (min_npos cut pos).
Proof.
  intros HP [HQ1 HQ2]. destruct cut as [c|]; simpl in *.
  - destruct HP as [HP1 HP2]. split.
    + destruct (Nat.min_spec c pos) as [[_ ->]|[_ ->]]; auto.
    + intros q [Hq|Hq]; [apply HP2 in Hq | apply HQ2 in Hq]; lia.
  - split; [auto|]. intros q [Hq|Hq]; [by apply HP in Hq | by apply HQ2].
Qed.

Lemma stop_at_cons_empty t stops s p :
  t = [] → stop_at (t :: stops) s p ↔ stop_at stops s p.
Proof.
  intros ->. split.
  - intros (t & Ht & Hne & Ho). apply elem_of_cons in Ht as [->|Ht]; [done|].
    by exists t.
  - intros (t & Ht & Hne & Ho). exists t. split; [by right | done].
Qed.

Lemma stop_at_cons t stops s p :
  t ≠ [] → stop_at (t :: stops) s p ↔ occurs_at t s p ∨ stop_at stops s p.
Proof.
  intros Hne. split.
  - intros (t' & Ht & Hne' & Ho). apply elem_of_cons in Ht as [->|Ht].
    + by left.
    + right. by exists t'.
  - intros [Ho|(t' & Ht & Hne' & Ho)].
    + exists t. split; [by left | done].
    + exists t'. split; [by right | done].
Qed.

Lemma empty_true t : Str.empty t = true ↔ t = [].
Proof. by destruct t. Qed.

Lemma trim_scan_least s stops : ∀ (P : nat → Prop) cut,
  is_least P cut →
  is_least (λ p, P p ∨ stop_at stops s p) (trim_scan s stops cut).
Proof.
  induction stops as [|t stops IH]; intros P cut Hcut; simpl.
  - eapply is_least_iff; [|exact Hcut]. intros p. split; [auto|].
    intros [H|(t & Ht & _)]; [done|]. by apply elem_of_nil in Ht.
  - destruct (Str.empty t) eqn:E.
    + apply empty_true in E.
      eapply is_least_iff; [|by apply (IH P cut)].
      intros p. by rewrite stop_at_cons_empty.
    + assert (t ≠ []) as Hne by (intros ->; done).
      destruct (Str.find s t) as [pos|] eqn:F.
      * eapply is_least_iff; [|apply (IH (λ p, P p ∨ occurs_at t s p))].
        -- intros p. rewrite stop_at_cons by done. tauto.
        -- apply min_npos_least; [done|]. by apply find_Some.
      * eapply is_least_iff; [|by apply (IH P cut)].
        intros p. rewrite stop_at_cons by done.
        pose proof (find_None _ _ F p). tauto.
Qed.

(** The value of [cut] after the loop is the least offset at which some
    non-empty stop literal occurs. *)
Lemma trim_scan_stop_at s stops :
  is_least (stop_at stops s) (trim_scan s stops None).
Proof.
  apply (is_least_iff (λ p, False ∨ stop_at stops s p)).
  - intros p. tauto.
  - apply (trim_scan_least s stops (λ _, False) None). intros q [].
Qed.

Lemma stop_at_bound stops s p : stop_at stops s p → p < length s.
Proof.
  intros (t & _ & Hne & Ho). apply occurs_at_bound in Ho.
  destruct t; [done|]. simpl in Ho. lia.
Qed.

Lemma trim_at_least s stops p :
  is_least (stop_at stops s) (Some p) →
  trim_at_stop_first_occurrence s stops = take p s.
Proof.
  intros Hp. unfold trim_at_stop_first_occurrence.
  rewrite (is_least_unique _ _ _ (trim_scan_stop_at s stops) Hp).
  destruct Hp as [Hp _]. apply stop_at_bound in Hp.
  apply resize_le. lia.
Qed.

Lemma trim_at_none s stops :
  is_least (stop_at stops s) None →
  trim_at_stop_first_occurrence s stops = s.
Proof.
  intros Hp. unfold trim_at_stop_first_occurrence.
  by rewrite (is_least_unique _ _ _ (trim_scan_stop_at s stops) Hp).
Qed.

Lemma occurs_at_take t s c q : occurs_at t (take c s) q → occurs_at t s q.
Proof.
  intros (pre & post & Hs & Hl). exists pre, (post ++ drop c s).
  split; [|done]. rewrite <- (take_drop c s) at 1. rewrite Hs.
  by rewrite <- !app_assoc.
Qed.

Lemma no_stop_in_trimmed s stops c :
  is_least (stop_at stops s) (Some c) →
  is_least (stop_at stops (take c s)) None.
Proof.
  intros [Hc Hmin] q (t & Ht & Hne & Ho).
  assert (c ≤ q) as Hle.
  { apply Hmin. exists t. eauto using occurs_at_take. }
  apply occurs_at_bound in Ho. rewrite length_take in Ho.
  destruct t; [done|]. simpl in Ho. lia.
Qed.

Lemma ends_with_any_spec s stops :
  ends_with_any s stops = true ↔ ∃ t, t ∈ stops ∧ t ≠ [] ∧ t `suffix_of` s.
Proof.
  induction stops as [|t stops IH]; simpl.
  - split; [done|]. intros (t & Ht & _). by apply elem_of_nil in Ht.
  - destruct (Str.empty t) eqn:E.
    + apply empty_true in E as ->. rewrite IH. split.
      * intros (t & Ht & H). exists t. split; [by right | done].
      * intros (t & Ht & Hne & H).
        apply elem_of_cons in Ht as [->|Ht]; [done|]. by exists t.
    + assert (t ≠ []) as Hne by (intros ->; done).
      destruct (length t <=? length s) eqn:L; simpl.
      * apply Nat.leb_le in L.
        destruct (Str.compare_eq s _ _ t) eqn:C.
        -- apply compare_suffix in C; [|done]. split; [|done].
           intros _. exists t. split; [by left | done].
        -- rewrite IH. split.
           ++ intros (t' & Ht & H). exists t'. split; [by right | done].
           ++ intros (t' & Ht & Hne' & H).
              apply elem_of_cons in Ht as [->|Ht]; [|by exists t'].
              apply compare_suffix in H; [congruence | done].
      * apply Nat.leb_gt in L. rewrite IH. split.
        -- intros (t' & Ht & H). exists t'. split; [by right | done].
        -- intros (t' & Ht & Hne' & H).
           apply elem_of_cons in Ht as [->|Ht]; [|by exists t'].
           apply suffix_length in H. lia.
Qed.

End Stops.

(** C5: the stop-sequence matcher answers [true] exactly when some non-empty
    literal of the stop list is, byte for byte, a suffix of the accumulated
    text; empty literals never cause a match: the answer is the same with
    all of them removed from the list. *)
Theorem ends_with_any_iff_suffix (s : bytes) (stops : list bytes) :
  (ends_with_any s stops = true
     ↔ ∃ t, t ∈ stops ∧ t ≠ [] ∧ t `suffix_of` s)
  ∧ ends_with_any s (filter (λ t, t ≠ []) stops) = ends_with_any s stops.
Proof.
  split; [apply ends_with_any_spec|].
  apply eq_true_iff_eq. rewrite !ends_with_any_spec. split.
  - intros (t & Ht & H). apply list_elem_of_filter in Ht as [_ Ht]. by exists t.
  - intros (t & Ht & Hne & H). exists t.
    split; [by apply list_elem_of_filter | done].
Qed.

(** C3: the trimmer truncates the text at the least offset at which a
    non-empty stop literal occurs anywhere in it, and leaves the text as it
    is when no literal occurs; with the literals "X" and "YZ" the text
    "aaXbbYZcc" is trimmed to "aa". *)
Theorem trim_at_earliest_offset (s : bytes) (stops : list bytes) :
  (∀ p, stop_at stops s p → (∀ q, stop_at stops s q → p ≤ q) →
        trim_at_stop_first_occurrence s stops = take p s)
  ∧ ((∀ p, ¬ stop_at stops s p) → trim_at_stop_first_occurrence s stops = s)
  ∧ ((∃ p, stop_at stops s p ∧ ∀ q, stop_at stops s q → p ≤ q)
     ∨ (∀ p, ¬ stop_at stops s p))
  ∧ trim_at_stop_first_occurrence (lit "aaXbbYZcc") [lit "X"; lit "YZ"]
    = lit "aa".
Proof.
  split; [|split; [|split]].
  - intros p Hp Hmin. by apply trim_at_least.
  - intros Hnone. by apply trim_at_none.
  - pose proof (trim_scan_stop_at s stops) as H.
    destruct (trim_scan s stops None) as [c|]; simpl in H.
    + left. exists c. apply H.
    + by right.
  - reflexivity.
Qed.

(** The hypotheses of the first part of C3 hold for "aaXbbYZcc": offset 2 is
    the least at which "X" or "YZ" occurs. *)
Lemma trim_at_earliest_offset_witness :
  trim_at_stop_first_occurrence (lit "aaXbbYZcc") [lit "X"; lit "YZ"]
  = take 2 (lit "aaXbbYZcc").
Proof.
  pose proof (trim_scan_stop_at (lit "aaXbbYZcc") [lit "X"; lit "YZ"]) as [H1 H2].
  exact (proj1 (trim_at_earliest_offset (lit "aaXbbYZcc") [lit "X"; lit "YZ"])
           2 H1 H2).
Defined.

(** C4: the stop-point trimmer is idempotent. *)
Theorem trim_idempotent (s : bytes) (stops : list bytes) :
  trim_at_stop_first_occurrence (trim_at_stop_first_occurrence s stops) stops
  = trim_at_stop_first_occurrence s stops.
Proof.
  pose proof (trim_scan_stop_at s stops) as H.
  destruct (trim_scan s stops None) as [c|] eqn:E.
  - rewrite (trim_at_least s stops c H).
    apply trim_at_none. by apply no_stop_in_trimmed.
  - by rewrite !(trim_at_none s stops H).
Qed.

(** ** The sentence normalizer *)

Section Normalize.

Implicit Types (s t e : bytes) (p q : nat) (c : byte).

Lemma find_char_find s c : Str.find_char s c = Str.find s [c].
Proof.
  induction s as [|b s IH]; [done|]. simpl.
  rewrite andb_true_r.
  replace (Byte.eqb c b) with (Byte.eqb b c).
  - destruct (Byte.eqb b c); [done | by rewrite IH].
  - apply eq_true_iff_eq. rewrite !byte_eqb_eq. split; congruence.
Qed.

Lemma upd_best_least (P Q : nat → Prop) best v :
  is_least P best → is_least Q (Some v) →
  is_least (λ p, P p ∨ Q p) (upd_best best v).
Proof. exact (min_npos_least P Q best v). Qed.

Lemma ends_at_cons e es s q :
  ends_at (e :: es) s q
  ↔ (∃ p, occurs_at e s p ∧ q = p + length e) ∨ ends_at es s q.
Proof.
  split.
  - intros (e' & p & He & Ho & ->). apply elem_of_cons in He as [->|He].
    + left. by exists p.
    + right. by exists e', p.
  - intros [(p & Ho & ->)|(e' & p & He & Ho & ->)].
    + exists e, p. split; [by left | done].
    + exists e', p. split; [by right | done].
Qed.

Lemma scan_ends_least s es : ∀ (P : nat → Prop) best,
  is_least P best →
  is_least (λ q, P q ∨ ends_at es s q) (scan_ends s es best).
Proof.
  induction es as [|e es IH]; intros P best Hbest; simpl.
  - eapply is_least_iff; [|exact Hbest]. intros q. split; [auto|].
    intros [H|(e & p & He & _)]; [done|]. by apply elem_of_nil in He.
  - destruct (Str.find s e) as [p|] eqn:F.
    + pose proof (find_Some _ _ _ F) as [Ho Hmin].
      eapply is_least_iff;
        [|apply (IH (λ q, P q ∨ ∃ p', occurs_at e s p' ∧ q = p' + length e))].
      * intros q. rewrite ends_at_cons. tauto.
      * apply upd_best_least; [done|]. split; [by exists p|].
        intros q (p' & Ho' & ->). apply Hmin in Ho'. lia.
    + eapply is_least_iff; [|by apply (IH P best)].
      intros q. rewrite ends_at_cons. split; [tauto|].
      intros [H|[(p & Ho & _)|H]]; [tauto| |tauto].
      by apply (find_None _ _ F) in Ho.
Qed.

(** The result of [find_first_sentence_end_zh] is the least sentence
    end. *)
Lemma first_sentence_end_least s :
  is_least (sentence_end_at s) (find_first_sentence_end_zh s).
Proof.
  unfold find_first_sentence_end_zh.
  assert (is_least (ends_at ends s) (scan_ends s ends None)) as Hb.
  { apply (is_least_iff (λ q, False ∨ ends_at ends s q)); [intros; tauto|].
    apply (scan_ends_least s ends (λ _, False) None). intros q []. }
  rewrite find_char_find.
  destruct (Str.find s [Str.LF]) as [nl|] eqn:F.
  - apply upd_best_least; [done|]. by apply find_Some.
  - eapply is_least_iff; [|exact Hb]. intros q. split; [by left|].
    intros [H|H]; [done|]. by apply (find_None _ _ F) in H.
Qed.

Lemma sentence_end_bound s q : sentence_end_at s q → q ≤ length s.
Proof.
  intros [(e & p & _ & Ho & ->)|Ho]; apply occurs_at_bound in Ho;
    simpl in *; lia.
Qed.

Lemma cut_sentence_prefix s : cut_sentence s `prefix_of` s.
Proof.
  unfold cut_sentence.
  pose proof (first_sentence_end_least s) as H.
  destruct (find_first_sentence_end_zh s) as [c|]; [|done].
  rewrite resize_le; [apply prefix_take|]. apply sentence_end_bound, H.
Qed.

Lemma strip_front_suffix s : strip_front s `suffix_of` s.
Proof.
  induction s as [|c s IH]; simpl; [done|].
  destruct (is_ws c); [by apply suffix_cons_r | done].
Qed.

Lemma strip_back_prefix s : strip_back s `prefix_of` s.
Proof.
  unfold strip_back. apply prefix_suffix_reverse.
  rewrite reverse_involutive. apply strip_front_suffix.
Qed.

Lemma collapse_sublist b s : collapse b s `sublist_of` s.
Proof.
  revert b. induction s as [|c s IH]; intros b; simpl; [done|].
  destruct (Byte.eqb c Str.SP), b;
    first [by apply sublist_skip | by apply sublist_cons].
Qed.

Lemma prefix_sublist (l k : bytes) : l `prefix_of` k → l `sublist_of` k.
Proof. intros [r ->]. by apply sublist_inserts_r. Qed.

Lemma suffix_sublist (l k : bytes) : l `suffix_of` k → l `sublist_of` k.
Proof. intros [r ->]. by apply sublist_inserts_l. Qed.

Lemma strip_sublist s : strip_back (strip_front s) `sublist_of` s.
Proof.
  etrans; [apply prefix_sublist, strip_back_prefix|].
  apply suffix_sublist, strip_front_suffix.
Qed.

(** What is left after the first three steps is scattered over [s]. *)
Lemma stripped_sublist s :
  strip_back (strip_front (cut_sentence (remove_cr s))) `sublist_of` s.
Proof.
  etrans; [apply strip_sublist|].
  etrans; [apply prefix_sublist, cut_sentence_prefix|].
  apply sublist_filter.
Qed.

Lemma normalize_sublist s : normalize_one_sentence s `sublist_of` blank <$> s.
Proof.
  unfold normalize_one_sentence.
  etrans; [apply collapse_sublist|].
  apply fmap_sublist, stripped_sublist.
Qed.

Lemma blank_not_lf_tab c : blank c ≠ Str.LF ∧ blank c ≠ Str.TAB.
Proof.
  unfold blank. destruct (Byte.eqb c Str.LF) eqn:E1; [done|].
  destruct (Byte.eqb c Str.TAB) eqn:E2; [done|]. simpl.
  by apply byte_eqb_neq in E1, E2.
Qed.

Lemma blank_cr c : blank c = Str.CR → c = Str.CR.
Proof.
  unfold blank. by destruct (Byte.eqb c Str.LF || Byte.eqb c Str.TAB).
Qed.

Lemma collapse_single_spaced b s : single_spaced b (collapse b s).
Proof.
  revert b. induction s as [|c s IH]; intros b; simpl; [done|].
  destruct (Byte.eqb c Str.SP) eqn:E.
  - destruct b; [apply IH|]. simpl. rewrite E. split; [done | apply IH].
  - simpl. rewrite E. split; [done | apply IH].
Qed.

Lemma single_spaced_weaken b s : single_spaced b s → single_spaced false s.
Proof. destruct s as [|c s]; simpl; [done|]. intros [_ H]. done. Qed.

Lemma single_spaced_no_double b s :
  single_spaced b s → ∀ p, ¬ occurs_at [Str.SP; Str.SP] s p.
Proof.
  revert b. induction s as [|c s IH]; intros b Hs p Ho.
  - by apply occurs_at_nil in Ho.
  - destruct Hs as [Hc Hs]. destruct p as [|p].
    + apply occurs_at_0 in Ho as [post Ho]. injection Ho as -> ->.
      simpl in Hs. destruct Hs as [Hs _]. by specialize (Hs eq_refl).
    + apply occurs_at_S in Ho. by eapply IH.
Qed.

Lemma normalize_elem s c :
  c ∈ normalize_one_sentence s → ∃ x, c = blank x ∧ x ≠ Str.CR.
Proof.
  intros Hc. unfold normalize_one_sentence in Hc.
  eapply elem_of_sublist in Hc; [|apply collapse_sublist].
  apply list_elem_of_fmap in Hc as (x & -> & Hx). exists x. split; [done|].
  eapply elem_of_sublist in Hx; [|apply strip_sublist].
  eapply elem_of_prefix in Hx; [|apply cut_sentence_prefix].
  by apply list_elem_of_filter in Hx as [Hx _].
Qed.

Lemma normalize_no_cr s : Str.CR ∉ normalize_one_sentence s.
Proof.
  intros (x & Hx & Hne)%normalize_elem. symmetry in Hx.
  by apply blank_cr in Hx.
Qed.

Lemma normalize_no_tab s : Str.TAB ∉ normalize_one_sentence s.
Proof.
  intros (x & Hx & _)%normalize_elem. symmetry in Hx.
  by apply blank_not_lf_tab in Hx.
Qed.

Lemma normalize_no_lf s : Str.LF ∉ normalize_one_sentence s.
Proof.
  intros (x & Hx & _)%normalize_elem. symmetry in Hx.
  by apply blank_not_lf_tab in Hx.
Qed.

Lemma normalize_single_spaced s :
  single_spaced false (normalize_one_sentence s).
Proof. apply collapse_single_spaced. Qed.

End Normalize.

(** C6: the output of the sentence normalizer holds no carriage return, no
    tab, no line break (in its interior or elsewhere), and no two
    consecutive spaces. *)
Theorem normalize_no_forbidden (s : bytes) :
  (Str.CR ∉ normalize_one_sentence s)
  ∧ (Str.TAB ∉ normalize_one_sentence s)
  ∧ (Str.LF ∉ normalize_one_sentence s)
  ∧ ∀ p, ¬ occurs_at [Str.SP; Str.SP] (normalize_one_sentence s) p.
Proof.
  split; [apply normalize_no_cr|].
  split; [apply normalize_no_tab|].
  split; [apply normalize_no_lf|].
  eapply single_spaced_no_double, normalize_single_spaced.
Qed.

(** C7: the sentence normalizer never makes the text longer. *)
Theorem normalize_length_le (s : bytes) :
  length (normalize_one_sentence s) ≤ length s.
Proof.
  rewrite <- (length_fmap blank s).
  apply sublist_length, normalize_sublist.
Qed.

(** ** Strings that the normalizer leaves alone *)

Section Idempotence.

Implicit Types (s v e pre post : bytes) (p q : nat) (c : byte).

Lemma is_ws_blank c : is_ws (blank c) = is_ws c.
Proof. by destruct c. Qed.

Lemma is_ws_false_sp c : is_ws c = false → Byte.eqb c Str.SP = false.
Proof. unfold is_ws. by destruct (Byte.eqb c Str.SP). Qed.

Lemma blank_solid c : is_ws (blank c) = false → blank c = c.
Proof. by destruct c. Qed.

Lemma ends_solid e : e ∈ ends → solid e.
Proof.
  unfold ends. rewrite !elem_of_cons, elem_of_nil.
  intros [->|[->|[->|[]]]]; (split; [done | by repeat constructor]).
Qed.

(** *** After the cut, a sentence end can only be the end of the text *)

Lemma sentence_end_take s n q :
  sentence_end_at (take n s) q → sentence_end_at s q.
Proof.
  intros [(e & p & He & Ho & ->)|Ho].
  - left. exists e, p. eauto using occurs_at_take.
  - right. eauto using occurs_at_take.
Qed.

Lemma cut_sentence_ends s q :
  sentence_end_at (cut_sentence s) q → q = length (cut_sentence s).
Proof.
  unfold cut_sentence.
  pose proof (first_sentence_end_least s) as H.
  destruct (find_first_sentence_end_zh s) as [c|].
  - destruct H as [Hc Hmin]. apply sentence_end_bound in Hc.
    rewrite resize_le by done. intros Hq.
    pose proof (sentence_end_bound _ _ Hq) as Hb.
    apply sentence_end_take, Hmin in Hq.
    rewrite length_take in *. lia.
  - intros Hq. by apply H in Hq.
Qed.

Lemma elem_occurs_at c s : c ∈ s → ∃ p, occurs_at [c] s p.
Proof.
  intros (pre & post & ->)%list_elem_of_split.
  by exists (length pre), pre, post.
Qed.

Lemma cut_sentence_no_lf s : Str.LF ∉ cut_sentence s.
Proof.
  intros [p Hp]%elem_occurs_at.
  pose proof (occurs_at_bound _ _ _ Hp) as Hb. simpl in Hb.
  assert (p = length (cut_sentence s)); [|lia].
  apply cut_sentence_ends. by right.
Qed.

Lemma cut_sentence_tail_closed s e : e ∈ ends → tail_closed e (cut_sentence s).
Proof.
  intros He pre post Hs.
  assert (length pre + length e = length (cut_sentence s)) as Hl.
  { apply cut_sentence_ends. left. exists e, (length pre).
    split; [done|]. split; [by exists pre, post | done]. }
  rewrite Hs, !length_app in Hl. apply nil_length_inv. lia.
Qed.

(** *** The later steps create no new occurrence of a solid mark *)

Lemma strip_front_tail_closed e v :
  tail_closed e v → tail_closed e (strip_front v).
Proof.
  intros Hv pre post Hs. destruct (strip_front_suffix v) as [k Hk].
  apply (Hv (k ++ pre) post). rewrite Hk, Hs. by rewrite <- app_assoc.
Qed.

Lemma strip_back_tail_closed e v :
  tail_closed e v → tail_closed e (strip_back v).
Proof.
  intros Hv pre post Hs. destruct (strip_back_prefix v) as [k Hk].
  assert (post ++ k = []) as Hnil.
  { apply (Hv pre). rewrite Hk, Hs. by rewrite <- !app_assoc. }
  by apply app_eq_nil in Hnil as [-> _].
Qed.

Lemma blank_solid_inv (l : list byte) :
  Forall (λ c, is_ws c = false) (blank <$> l) → blank <$> l = l.
Proof.
  induction l as [|x l IH]; [done|]. rewrite fmap_cons.
  intros [Hx Hl]%Forall_cons. rewrite IH by done.
  by rewrite blank_solid.
Qed.

Lemma blank_tail_closed e v :
  solid e → tail_closed e v → tail_closed e (blank <$> v).
Proof.
  intros [_ He] Hv pre post Hs.
  apply fmap_app_inv in Hs as (l1 & l2 & -> & Hs & ->). symmetry in Hs.
  apply fmap_app_inv in Hs as (l3 & l4 & -> & -> & ->).
  rewrite (blank_solid_inv l3 He) in Hv.
  by rewrite (Hv l1 l4 eq_refl).
Qed.

Lemma collapse_nonspace b c v :
  Byte.eqb c Str.SP = false → collapse b (c :: v) = c :: collapse false v.
Proof. intros E. simpl. by rewrite E. Qed.

Lemma collapse_solid_prefix e : Forall (λ c, is_ws c = false) e →
  ∀ v post, collapse false v = e ++ post →
            ∃ post', v = e ++ post' ∧ collapse false post' = post.
Proof.
  induction 1 as [|c e Hc He IH]; intros v post Hv.
  - by exists v.
  - apply is_ws_false_sp in Hc. destruct v as [|x v]; [done|].
    simpl in Hv. destruct (Byte.eqb x Str.SP) eqn:E.
    + injection Hv as -> _. congruence.
    + injection Hv as -> Hv. destruct (IH _ _ Hv) as (post' & -> & <-).
      by exists post'.
Qed.

Lemma collapse_occurrence e : solid e →
  ∀ v b pre post, collapse b v = pre ++ e ++ post →
    ∃ pre' post', v = pre' ++ e ++ post' ∧ collapse false post' = post.
Proof.
  intros [Hne He]. induction v as [|x v IH]; intros b pre post Hv.
  - simpl in Hv. symmetry in Hv.
    apply app_eq_nil in Hv as [_ Hv]. by apply app_eq_nil in Hv as [-> _].
  - destruct (Byte.eqb x Str.SP) eqn:E.
    + assert (∃ b' pre1, collapse b' v = pre1 ++ e ++ post)
        as (b' & pre1 & Hv').
      { simpl in Hv. rewrite E in Hv. destruct b; [by eauto|].
        destruct pre as [|y pre].
        - destruct He as [|c e Hc He]; [done|].
          apply is_ws_false_sp in Hc. simpl in Hv. injection Hv as -> _.
          congruence.
        - injection Hv as _ Hv. eauto. }
      destruct (IH _ _ _ Hv') as (pre' & post' & -> & <-).
      by exists (x :: pre'), post'.
    + rewrite collapse_nonspace in Hv by done.
      destruct pre as [|y pre].
      * rewrite <- (collapse_nonspace false) in Hv by done.
        destruct (collapse_solid_prefix e He _ _ Hv) as (post' & -> & <-).
        by exists [], post'.
      * injection Hv as _ Hv.
        destruct (IH _ _ _ Hv) as (pre' & post' & -> & <-).
        by exists (x :: pre'), post'.
Qed.

Lemma collapse_tail_closed e v b :
  solid e → tail_closed e v → tail_closed e (collapse b v).
Proof.
  intros He Hv pre post Hs.
  destruct (collapse_occurrence e He _ _ _ _ Hs) as (pre' & post' & Hv' & <-).
  by rewrite (Hv _ _ Hv').
Qed.

Lemma normalize_tail_closed s e :
  e ∈ ends → tail_closed e (normalize_one_sentence s).
Proof.
  intros He. pose proof (ends_solid e He) as Hsolid.
  unfold normalize_one_sentence.
  apply collapse_tail_closed, blank_tail_closed; try done.
  by apply strip_back_tail_closed, strip_front_tail_closed,
    cut_sentence_tail_closed.
Qed.

(** *** White space at the two ends *)

Lemma strip_front_no_ws s : no_ws_front (strip_front s).
Proof.
  induction s as [|c s IH]; simpl; [done|].
  destruct (is_ws c) eqn:E; [done|]. by intros c' [= <-].
Qed.

Lemma strip_back_no_ws s : no_ws_back (strip_back s).
Proof.
  unfold strip_back, no_ws_back. intros c. rewrite last_reverse.
  apply strip_front_no_ws.
Qed.

Lemma no_ws_front_prefix s v :
  v `prefix_of` s → no_ws_front s → no_ws_front v.
Proof.
  intros [k ->] Hs c Hc. apply Hs. destruct v; [done|]. done.
Qed.

Lemma no_ws_front_blank s : no_ws_front s → no_ws_front (blank <$> s).
Proof.
  destruct s as [|x s]; [done|]. intros Hs c [= <-].
  rewrite is_ws_blank. by apply Hs.
Qed.

Lemma no_ws_back_blank s : no_ws_back s → no_ws_back (blank <$> s).
Proof.
  intros Hs c. rewrite fmap_last. destruct (last s) as [x|] eqn:L; [|done].
  intros [= <-]. rewrite is_ws_blank. by apply Hs.
Qed.

Lemma no_ws_front_collapse s : no_ws_front s → no_ws_front (collapse false s).
Proof.
  destruct s as [|x s]; [done|]. intros Hs.
  rewrite collapse_nonspace by by apply is_ws_false_sp, Hs.
  intros c [= <-]. by apply Hs.
Qed.

Lemma collapse_snoc b s c :
  Byte.eqb c Str.SP = false → collapse b (s ++ [c]) = collapse b s ++ [c].
Proof.
  intros E. revert b. induction s as [|x s IH]; intros b; simpl.
  - by rewrite E.
  - destruct (Byte.eqb x Str.SP), b; by rewrite IH.
Qed.

Lemma no_ws_back_collapse b s : no_ws_back s → no_ws_back (collapse b s).
Proof.
  destruct (last s) as [x|] eqn:L.
  - apply last_Some in L as [l ->]. intros Hs.
    pose proof (Hs x (last_snoc _ _)) as Hx.
    rewrite collapse_snoc by by apply is_ws_false_sp.
    intros c. rewrite last_snoc. by intros [= <-].
  - apply last_None in L as ->. done.
Qed.

Lemma normalize_no_ws_front s : no_ws_front (normalize_one_sentence s).
Proof.
  apply no_ws_front_collapse, no_ws_front_blank.
  eapply no_ws_front_prefix; [apply strip_back_prefix|].
  apply strip_front_no_ws.
Qed.

Lemma normalize_no_ws_back s : no_ws_back (normalize_one_sentence s).
Proof.
  apply no_ws_back_collapse, no_ws_back_blank, strip_back_no_ws.
Qed.

(** *** Each step is the identity on a string in normal form *)

Lemma remove_cr_id s : Str.CR ∉ s → remove_cr s = s.
Proof.
  unfold remove_cr. induction s as [|c s IH]; [done|].
  intros [Hc Hs]%not_elem_of_cons.
  rewrite filter_cons_True by done. by rewrite IH.
Qed.

Lemma cut_sentence_id s :
  (∀ q, sentence_end_at s q → q = length s) → cut_sentence s = s.
Proof.
  intros Hs. unfold cut_sentence.
  pose proof (first_sentence_end_least s) as H.
  destruct (find_first_sentence_end_zh s) as [c|]; [|done].
  destruct H as [Hc _]. apply Hs in Hc as ->.
  rewrite resize_le by done. by rewrite take_ge.
Qed.

Lemma strip_front_id s : no_ws_front s → strip_front s = s.
Proof.
  destruct s as [|c s]; [done|]. intros Hs. simpl.
  by rewrite (Hs c eq_refl).
Qed.

Lemma strip_back_id s : no_ws_back s → strip_back s = s.
Proof.
  intros Hs. unfold strip_back. rewrite strip_front_id.
  - apply reverse_involutive.
  - intros c. rewrite head_reverse. apply Hs.
Qed.

Lemma blank_id s : Str.LF ∉ s → Str.TAB ∉ s → blank <$> s = s.
Proof.
  induction s as [|c s IH]; [done|].
  intros [Hc1 Hs1]%not_elem_of_cons [Hc2 Hs2]%not_elem_of_cons.
  rewrite fmap_cons, IH by done. f_equal. unfold blank.
  apply not_eq_sym, byte_eqb_neq in Hc1, Hc2. by rewrite Hc1, Hc2.
Qed.

Lemma collapse_id b s : single_spaced b s → collapse b s = s.
Proof.
  revert b. induction s as [|c s IH]; intros b; simpl; [done|].
  intros [Hc Hs]. rewrite (IH _ Hs).
  destruct (Byte.eqb c Str.SP); [|done]. by rewrite Hc.
Qed.

(** The normalizer does nothing to a string that has the shape of its
    own results. *)
Lemma normalize_fixed s :
  Str.CR ∉ s → Str.LF ∉ s → Str.TAB ∉ s →
  (∀ e, e ∈ ends → tail_closed e s) →
  no_ws_front s → no_ws_back s → single_spaced false s →
  normalize_one_sentence s = s.
Proof.
  intros Hcr Hlf Htab Hends Hfront Hback Hsp.
  unfold normalize_one_sentence.
  rewrite remove_cr_id by done.
  rewrite cut_sentence_id.
  - rewrite strip_front_id, strip_back_id, blank_id by done.
    by apply collapse_id.
  - intros q [(e & p & He & (pre & post & Hs & <-) & ->)|Ho].
    + rewrite (Hends e He pre post Hs), app_nil_r in Hs.
      by rewrite Hs, length_app.
    + destruct Ho as (pre & post & -> & _). exfalso. apply Hlf.
      apply elem_of_app. right. by left.
Qed.

End Idempotence.

(** C10: the sentence normalizer is idempotent. *)
Theorem normalize_idempotent (s : bytes) :
  normalize_one_sentence (normalize_one_sentence s) = normalize_one_sentence s.
Proof.
  apply normalize_fixed.
  - apply normalize_no_cr.
  - apply normalize_no_lf.
  - apply normalize_no_tab.
  - intros e He. by apply normalize_tail_closed.
  - apply normalize_no_ws_front.
  - apply normalize_no_ws_back.
  - apply normalize_single_spaced.
Qed.

(** ** The generation loop and the post-processing *)

Section Runs.

Implicit Types (eng : engine) (stops : list bytes) (k n : nat).

Lemma gen_loop_goes_on eng stops n k :
  k ≤ n → (∀ i, i < k → goes_on eng stops i) →
  gen_loop eng stops n 0 [] = gen_loop eng stops (n - k) k (accumulated eng k).
Proof.
  induction k as [|k IH]; intros Hk Hgo.
  - by rewrite Nat.sub_0_r.
  - rewrite IH by (try lia; intros i Hi; apply Hgo; lia).
    destruct (Hgo k) as (Heos & Hnb & Hstop & Hrc); [lia|].
    replace (n - k) with (S (n - S k)) by lia. simpl.
    rewrite Heos. apply Z.leb_gt in Hnb. rewrite Hnb.
    simpl in Hstop. rewrite Hstop.
    by rewrite Hrc.
Qed.

Lemma gen_loop_eos eng stops r k out :
  tok_is_eos (eng k) = true → gen_loop eng stops (S r) k out = (k, out).
Proof. intros H. simpl. by rewrite H. Qed.

Lemma gen_loop_piece_error eng stops r k out :
  piece_error eng k → gen_loop eng stops (S r) k out = (k, out).
Proof.
  intros [Heos Hnb]. simpl. rewrite Heos.
  apply Z.leb_le in Hnb. by rewrite Hnb.
Qed.

Lemma gen_loop_decode_error eng stops r k :
  decode_error eng stops k →
  gen_loop eng stops (S r) k (accumulated eng k)
  = (k, accumulated eng (S k)).
Proof.
  intros (Heos & Hnb & Hstop & Hrc). simpl. rewrite Heos.
  apply Z.leb_gt in Hnb. rewrite Hnb.
  simpl in Hstop. rewrite Hstop.
  apply Z.eqb_neq in Hrc. by rewrite Hrc.
Qed.

Lemma trim_prefix (s : bytes) stops :
  trim_at_stop_first_occurrence s stops `prefix_of` s.
Proof.
  unfold trim_at_stop_first_occurrence.
  pose proof (trim_scan_stop_at s stops) as H.
  destruct (trim_scan s stops None) as [c|]; [|done].
  destruct H as [Hc _]. apply stop_at_bound in Hc.
  rewrite resize_le by lia. apply prefix_take.
Qed.

Lemma blank_blank (s : bytes) : blank <$> (blank <$> s) = blank <$> s.
Proof.
  rewrite <- list_fmap_compose. apply list_fmap_ext.
  intros _ c _. simpl. by destruct c.
Qed.

Lemma postprocess_sublist stops (key b : bytes) :
  postprocess stops key b `sublist_of` blank <$> b.
Proof.
  unfold postprocess.
  set (out1 := trim_at_stop_first_occurrence b stops).
  set (out2 := normalize_one_sentence out1).
  assert (out2 `sublist_of` blank <$> b) as H2.
  { etrans; [apply normalize_sublist|].
    apply fmap_sublist, prefix_sublist, trim_prefix. }
  destruct (Str.find out2 key) as [p|]; [|done].
  destruct (0 <? p); [|done].
  etrans; [apply normalize_sublist|].
  rewrite <- (blank_blank b). apply fmap_sublist.
  etrans; [apply sublist_drop | done].
Qed.

End Runs.

Section Outcomes.

Implicit Types (eng : engine) (stops : list bytes) (k n : nat) (out : bytes).

Lemma reserve_accepted (max_size n_predict : Z) :
  (0 ≤ n_predict)%Z → (6 * n_predict ≤ max_size)%Z →
  (max_size <? reserve_request n_predict)%Z = false.
Proof.
  intros Hn Hmax. apply Z.ltb_ge. unfold reserve_request, to_size_t.
  assert (n_predict `mod` 2 ^ 64 ≤ n_predict)%Z by (apply Z.mod_le; lia).
  assert (0 ≤ n_predict `mod` 2 ^ 64)%Z by (apply Z.mod_pos_bound; lia).
  assert ((n_predict `mod` 2 ^ 64 * 6) `mod` 2 ^ 64
          ≤ n_predict `mod` 2 ^ 64 * 6)%Z by (apply Z.mod_le; lia).
  lia.
Qed.

(** A negative budget makes [out.reserve] throw, whatever the engine: the
    capacity asked for wraps around to more than [2 ^ 63]. *)
Lemma negative_budget_aborts (max_size : Z) eng (n_predict : Z) :
  (- 2 ^ 31 ≤ n_predict < 0)%Z → (max_size < 2 ^ 63)%Z →
  generate max_size eng n_predict = Throws_length_error.
Proof.
  intros Hn Hmax. unfold generate.
  assert (reserve_request n_predict = 2 ^ 64 + 6 * n_predict)%Z as ->.
  { unfold reserve_request, to_size_t.
    assert (n_predict `mod` 2 ^ 64 = 2 ^ 64 + n_predict)%Z as ->.
    { symmetry. apply (Z.mod_unique _ _ (-1)); lia. }
    symmetry. apply (Z.mod_unique _ _ 5); lia. }
  assert ((max_size <? 2 ^ 64 + 6 * n_predict)%Z = true) as ->; [|done].
  apply Z.ltb_lt. lia.
Qed.

Lemma generate_completes (max_size : Z) eng (n_predict : Z) k out :
  (0 ≤ n_predict)%Z → (6 * n_predict ≤ max_size)%Z →
  gen_loop eng main_stops (Z.to_nat n_predict) 0 [] = (k, out) →
  generate max_size eng n_predict
  = Completes {| printed := postprocess main_stops anchor_key out;
                 exit_code := 0 |}.
Proof.
  intros Hn Hmax Hloop. unfold generate.
  by rewrite reserve_accepted, Hloop.
Qed.

Lemma accumulated_ext eng eng' k :
  (∀ i, i < k → eng' i = eng i) → accumulated eng' k = accumulated eng k.
Proof.
  induction k as [|k IH]; intros H; simpl; [done|].
  rewrite IH by (intros i Hi; apply H; lia). by rewrite H by lia.
Qed.

Lemma goes_on_ext eng eng' stops i :
  (∀ j, j ≤ i → eng' j = eng j) → goes_on eng stops i → goes_on eng' stops i.
Proof.
  intros H (H1 & H2 & H3 & H4). unfold goes_on.
  rewrite (accumulated_ext eng eng' (S i)) by (intros j Hj; apply H; lia).
  by rewrite H.
Qed.

Lemma loop_left_without_piece eng stops n k :
  k < n → (∀ i, i < k → goes_on eng stops i) →
  piece_error eng k ∨ tok_is_eos (eng k) = true →
  gen_loop eng stops n 0 [] = (k, accumulated eng k).
Proof.
  intros Hk Hgo H. rewrite (gen_loop_goes_on eng stops n k) by (done || lia).
  replace (n - k) with (S (n - S k)) by lia.
  destruct H; [by apply gen_loop_piece_error | by apply gen_loop_eos].
Qed.

Lemma loop_left_by_decode_error eng stops n k :
  k < n → (∀ i, i < k → goes_on eng stops i) →
  decode_error eng stops k →
  gen_loop eng stops n 0 [] = (k, accumulated eng (S k)).
Proof.
  intros Hk Hgo H. rewrite (gen_loop_goes_on eng stops n k) by (done || lia).
  replace (n - k) with (S (n - S k)) by lia.
  by apply gen_loop_decode_error.
Qed.

(** The loop when iteration [k] goes on and the engine then signals the end
    of the sequence, if the budget does not end the loop first. *)
Lemma loop_left_after eng stops n k :
  k < n → (∀ i, i < S k → goes_on eng stops i) →
  tok_is_eos (eng (S k)) = true →
  gen_loop eng stops n 0 [] = (S k, accumulated eng (S k)).
Proof.
  intros Hk Hgo Heos.
  rewrite (gen_loop_goes_on eng stops n (S k)) by (done || lia).
  destruct (n - S k) as [|r]; [done|]. by apply gen_loop_eos.
Qed.

Lemma decode_ok_goes_on eng eng' stops k :
  (∀ i, i < k → eng' i = eng i) → eng' k = with_decode_ok (eng k) →
  decode_error eng stops k → goes_on eng' stops k.
Proof.
  intros Hpre Hk (H1 & H2 & H3 & _). unfold goes_on.
  assert (accumulated eng' (S k) = accumulated eng (S k)) as ->.
  { simpl. rewrite (accumulated_ext eng eng' k) by done. by rewrite Hk. }
  by rewrite Hk.
Qed.

End Outcomes.

(** C1, against the claim: a run in which the engine yields no fragment in
    its second iteration ends exactly as the run in which the engine
    signals the end of the sequence in that iteration, and a run whose
    first decode step fails ends exactly as the run in which that step
    succeeds and the engine then signals the end of the sequence; the text
    printed is the buffer "x  y" after the trimmer and the normalizer have
    run on it. *)
Lemma decode_error_not_distinct :
  generate max_size_example eng_piece_error 8
  = generate max_size_example eng_clean_stop 8
  ∧ generate max_size_example eng_decode_error 8
    = generate max_size_example eng_clean_stop 8
  ∧ accumulated eng_piece_error 1 = lit "x  y"
  ∧ generate max_size_example eng_piece_error 8
    = Completes {| printed := lit "x y"; exit_code := 0 |}.
Proof. by vm_compute. Qed.

(** C1, amended: for a positive budget whose reservation succeeds, when
    the engine fails to produce a fragment in iteration [k], the loop is
    left in that iteration with nothing more appended, the trimmer, the
    normalizer and the anchor repair run on the partial buffer, and the run
    ends with status 0.  When there is no piece, the buffer holds the
    fragments before [k], and the outcome is that of any run with the same
    answers before [k] and the end of the sequence in iteration [k].  When
    the decode fails, the buffer also holds the fragment of [k], and the
    outcome is that of any run with the same answers before [k], the same
    answer in [k] but for a decode that succeeds, and the end of the
    sequence in iteration [k + 1]. *)
Theorem decode_error_outcome (max_size : Z) (eng : engine) (n_predict : Z)
    (k : nat) :
  (6 * n_predict ≤ max_size)%Z →
  k < Z.to_nat n_predict →
  (∀ i, i < k → goes_on eng main_stops i) →
  (piece_error eng k →
     gen_loop eng main_stops (Z.to_nat n_predict) 0 [] = (k, accumulated eng k)
     ∧ generate max_size eng n_predict
       = Completes
           {| printed := postprocess main_stops anchor_key (accumulated eng k);
              exit_code := 0 |}
     ∧ ∀ eng' : engine,
         (∀ i, i < k → eng' i = eng i) →
         tok_is_eos (eng' k) = true →
         generate max_size eng' n_predict = generate max_size eng n_predict)
  ∧ (decode_error eng main_stops k →
     gen_loop eng main_stops (Z.to_nat n_predict) 0 []
     = (k, accumulated eng (S k))
     ∧ generate max_size eng n_predict
       = Completes
           {| printed :=
                postprocess main_stops anchor_key (accumulated eng (S k));
              exit_code := 0 |}
     ∧ ∀ eng' : engine,
         (∀ i, i < k → eng' i = eng i) →
         eng' k = with_decode_ok (eng k) →
         tok_is_eos (eng' (S k)) = true →
         generate max_size eng' n_predict = generate max_size eng n_predict).
Proof.
  intros Hmax Hk Hgo.
  assert (0 ≤ n_predict)%Z as Hn by lia.
  split.
  - intros Herr.
    pose proof (loop_left_without_piece eng main_stops _ k Hk Hgo
                  (or_introl Herr)) as Hloop.
    split; [done|].
    rewrite (generate_completes _ _ _ _ _ Hn Hmax Hloop). split; [done|].
    intros eng' Hpre Heos.
    assert (∀ i, i < k → goes_on eng' main_stops i) as Hgo'.
    { intros i Hi. apply (goes_on_ext eng); [|by apply Hgo].
      intros j Hj. apply Hpre. lia. }
    pose proof (loop_left_without_piece eng' main_stops _ k Hk Hgo'
                  (or_intror Heos)) as Hloop'.
    rewrite (generate_completes _ _ _ _ _ Hn Hmax Hloop').
    by rewrite (accumulated_ext eng eng' k).
  - intros Herr.
    pose proof (loop_left_by_decode_error eng main_stops _ k Hk Hgo Herr)
      as Hloop.
    split; [done|].
    rewrite (generate_completes _ _ _ _ _ Hn Hmax Hloop). split; [done|].
    intros eng' Hpre Hok Heos.
    assert (∀ i, i < S k → goes_on eng' main_stops i) as Hgo'.
    { intros i Hi. destruct (decide (i = k)) as [->|Hne].
      - by apply (decode_ok_goes_on eng).
      - apply (goes_on_ext eng); [|apply Hgo; lia].
        intros j Hj. apply Hpre. lia. }
    pose proof (loop_left_after eng' main_stops _ k Hk Hgo' Heos) as Hloop'.
    rewrite (generate_completes _ _ _ _ _ Hn Hmax Hloop').
    simpl. rewrite (accumulated_ext eng eng' k) by done. by rewrite Hok.
Qed.

(** The hypotheses of C1 hold for a run whose second iteration yields no
    fragment, and for a run whose first decode step fails. *)
Lemma decode_error_outcome_witness :
  generate max_size_example eng_piece_error 8
  = Completes {| printed := lit "x y"; exit_code := 0 |}
  ∧ generate max_size_example eng_decode_error 8
    = Completes {| printed := lit "x y"; exit_code := 0 |}.
Proof.
  assert (6 * 8 ≤ max_size_example)%Z as Hmax by (by vm_compute).
  split.
  - assert (1 < Z.to_nat 8) as Hk by (vm_compute; lia).
    assert (∀ i, i < 1 → goes_on eng_piece_error main_stops i) as Hgo.
    { intros i Hi. assert (i = 0) as -> by lia. by vm_compute. }
    assert (piece_error eng_piece_error 1) as Herr.
    { split; [done | by vm_compute]. }
    exact (proj1 (proj2 (proj1 (decode_error_outcome _ _ _ _ Hmax Hk Hgo)
                           Herr))).
  - assert (0 < Z.to_nat 8) as Hk by (vm_compute; lia).
    assert (∀ i, i < 0 → goes_on eng_decode_error main_stops i) as Hgo.
    { intros i Hi. lia. }
    assert (decode_error eng_decode_error main_stops 0) as Herr.
    { by vm_compute. }
    exact (proj1 (proj2 (proj2 (decode_error_outcome _ _ _ _ Hmax Hk Hgo)
                           Herr))).
Defined.

(** C2, against the claim: on the example of the anchor repair, the
    pipeline of [main] does not produce the text that starts at the
    anchor. *)
Lemma anchor_example_not_repaired :
  postprocess main_stops anchor_key anchor_example ≠ anchor_expected.
Proof. by vm_compute. Qed.

(** C2, amended: on the text "嗯，好的。LR(0)项目集：一种状态集合。" the
    pipeline of [main] produces "嗯，好的": the first "。" is a stop literal
    (and, with an empty stop list, a sentence end that the normalizer cuts
    after), so the anchor, at offset 15, is already cut off when the repair
    looks for it.  The repair step alone, on the whole text, produces
    "LR(0)项目集：一种状态集合。". *)
Theorem anchor_example_result :
  postprocess main_stops anchor_key anchor_example = lit "嗯，好的"
  ∧ postprocess [] anchor_key anchor_example = lit "嗯，好的。"
  ∧ Str.find anchor_example anchor_key = Some 15
  ∧ normalize_one_sentence (Str.substr anchor_example 15) = anchor_expected.
Proof. by vm_compute. Qed.

(** C8, against the claim: with a budget of 0 the request is not rejected;
    it ends, with status 0 and an empty text, as a request with a budget of
    5 does when the engine signals the end of the sequence at once. *)
Lemma zero_budget_accepted :
  generate max_size_example eng_clean_stop 0
  = generate max_size_example (script [] step_eos) 5
  ∧ generate max_size_example eng_clean_stop 0
    = Completes {| printed := []; exit_code := 0 |}.
Proof. by vm_compute. Qed.

(** C8, amended: no check rejects a budget of 0: the reservation of
    capacity 0 succeeds, the loop runs no iteration and appends nothing,
    the post-processing runs on the empty buffer, and the run ends with the
    empty text and status 0. *)
Theorem zero_budget_outcome (max_size : Z) (eng : engine) :
  (0 ≤ max_size)%Z →
  gen_loop eng main_stops (Z.to_nat 0) 0 [] = (0, [])
  ∧ generate max_size eng 0
    = Completes {| printed := []; exit_code := 0 |}.
Proof.
  intros Hmax. split; [done|].
  by rewrite (generate_completes max_size eng 0 0 []).
Qed.

(** The hypothesis of C8 holds for the [max_size] of the examples. *)
Lemma zero_budget_outcome_witness :
  gen_loop eng_clean_stop main_stops (Z.to_nat 0) 0 [] = (0, [])
  ∧ generate max_size_example eng_clean_stop 0
    = Completes {| printed := []; exit_code := 0 |}.
Proof.
  apply (zero_budget_outcome max_size_example eng_clean_stop).
  by vm_compute.
Defined.

(** C9, against the claim: the output for the buffer " a" is "a", and the
    output for "好的，LR(0)项目集" is "LR(0)项目集"; neither is a prefix of
    its buffer. *)
Lemma output_not_prefix :
  ¬ (postprocess main_stops anchor_key (lit " a") `prefix_of` lit " a")
  ∧ ¬ (postprocess main_stops anchor_key (lit "好的，LR(0)项目集")
         `prefix_of` lit "好的，LR(0)项目集").
Proof.
  split; vm_compute; intros [k Hk]; discriminate.
Qed.

(** C9, amended: the stop-point trimmer returns a prefix of the buffer, and
    the final output is a subsequence of the buffer in which tabs and line
    breaks are replaced by spaces: post-processing deletes bytes and turns
    white space into spaces, and adds nothing. *)
Theorem output_sublist_of_buffer (stops : list bytes) (key b : bytes) :
  trim_at_stop_first_occurrence b stops `prefix_of` b
  ∧ postprocess stops key b `sublist_of` blank <$> b.
Proof.
  split; [apply trim_prefix | apply postprocess_sublist].
Qed.

(** * Further properties of the post-processing *)

Section NormalForms.

Implicit Types (s v e key : bytes) (stops : list bytes) (p q : nat).

Lemma normalize_normal_form s : normal_form (normalize_one_sentence s).
Proof.
  repeat split.
  - apply normalize_no_cr.
  - apply normalize_no_lf.
  - apply normalize_no_tab.
  - intros e He. by apply normalize_tail_closed.
  - apply normalize_no_ws_front.
  - apply normalize_no_ws_back.
  - apply normalize_single_spaced.
Qed.

Lemma normal_form_fixed s : normal_form s → normalize_one_sentence s = s.
Proof.
  intros (H1 & H2 & H3 & H4 & H5 & H6 & H7). by apply normalize_fixed.
Qed.

Lemma single_spaced_app b v s : single_spaced b (v ++ s) → single_spaced false s.
Proof.
  revert b. induction v as [|c v IH]; intros b; simpl.
  - apply single_spaced_weaken.
  - intros [_ H]. by eapply IH.
Qed.

Lemma not_elem_of_drop (c : byte) s p : c ∉ s → c ∉ drop p s.
Proof.
  intros Hc Hd. apply Hc. eapply elem_of_sublist; [done | apply sublist_drop].
Qed.

Lemma tail_closed_drop e s p : tail_closed e s → tail_closed e (drop p s).
Proof.
  intros Hs pre post Hd. apply (Hs (take p s ++ pre) post).
  rewrite <- (take_drop p s) at 1. rewrite Hd. by rewrite <- app_assoc.
Qed.

Lemma no_ws_back_drop s p : no_ws_back s → no_ws_back (drop p s).
Proof.
  intros Hs c Hc. apply Hs. rewrite <- (take_drop p s).
  apply last_Some in Hc as [l Hl]. rewrite Hl, app_assoc. apply last_snoc.
Qed.

(** A suffix of a normal form that does not start with white space is a
    normal form. *)
Lemma normal_form_drop s p :
  normal_form s → no_ws_front (drop p s) → normal_form (drop p s).
Proof.
  intros (H1 & H2 & H3 & H4 & H5 & H6 & H7) Hfront.
  split; [by apply not_elem_of_drop|].
  split; [by apply not_elem_of_drop|].
  split; [by apply not_elem_of_drop|].
  split; [intros e He; by apply tail_closed_drop, H4|].
  split; [done|].
  split; [by apply no_ws_back_drop|].
  apply (single_spaced_app false (take p s)). by rewrite take_drop.
Qed.

Lemma find_Some_drop s key p :
  Str.find s key = Some p → ∃ post, drop p s = key ++ post.
Proof.
  intros [(pre & post & -> & <-) _]%find_Some. exists post.
  by rewrite drop_app_length.
Qed.

Lemma find_prefix s key : key `prefix_of` s → Str.find s key = Some 0.
Proof.
  intros H%starts_with_prefix. destruct s; simpl; by rewrite H.
Qed.

Lemma solid_no_ws_front key post : solid key → no_ws_front (key ++ post).
Proof.
  intros [Hne Hk]. destruct Hk as [|c key Hc Hk]; [done|].
  by intros c' [= <-].
Qed.

(** What [postprocess] returns, without the second normalization. *)
Lemma postprocess_repair stops key b :
  solid key →
  postprocess stops key b
  = let out2 := normalize_one_sentence (trim_at_stop_first_occurrence b stops) in
    match Str.find out2 key with
    | Some p => drop p out2
    | None => out2
    end.
Proof.
  intros Hkey. unfold postprocess. simpl.
  set (out2 := normalize_one_sentence _).
  destruct (Str.find out2 key) as [p|] eqn:F; [|done].
  destruct (0 <? p) eqn:Hp.
  - apply normal_form_fixed. apply normal_form_drop.
    + apply normalize_normal_form.
    + destruct (find_Some_drop _ _ _ F) as [post ->].
      by apply solid_no_ws_front.
  - apply Nat.ltb_ge in Hp. assert (p = 0) as -> by lia. done.
Qed.

Lemma postprocess_normal_form stops key b :
  normal_form (postprocess stops key b).
Proof.
  unfold postprocess.
  destruct (Str.find _ key) as [p|]; [|apply normalize_normal_form].
  destruct (0 <? p); apply normalize_normal_form.
Qed.

Lemma strip_front_all_ws s : Forall (λ c, is_ws c = true) s → strip_front s = [].
Proof.
  induction 1 as [|c s Hc _ IH]; simpl; [done|]. by rewrite Hc.
Qed.

Lemma no_stop_after_trim s stops p :
  ¬ stop_at stops (trim_at_stop_first_occurrence s stops) p.
Proof.
  pose proof (trim_scan_stop_at s stops) as H.
  destruct (trim_scan s stops None) as [c|] eqn:E.
  - rewrite (trim_at_least s stops c H). by apply no_stop_in_trimmed.
  - rewrite (trim_at_none s stops H). apply H.
Qed.

Lemma suffix_occurs_at (t s : bytes) :
  t `suffix_of` s → occurs_at t s (length s - length t).
Proof.
  intros [k ->]. exists k, []. rewrite app_nil_r, length_app.
  split; [done | lia].
Qed.

Lemma not_ends_with_no_stop s stops :
  (∀ p, ¬ stop_at stops s p) → ends_with_any s stops = false.
Proof.
  intros H. apply not_true_is_false.
  intros (t & Ht & Hne & Hs)%ends_with_any_spec.
  apply (H (length s - length t)). exists t. eauto using suffix_occurs_at.
Qed.

End NormalForms.

(** X1: the text that the trimmer returns holds no occurrence of a
    non-empty stop literal. *)
Theorem trimmed_holds_no_stop (s : bytes) (stops : list bytes) (p : nat) :
  ¬ stop_at stops (trim_at_stop_first_occurrence s stops) p.
Proof. apply no_stop_after_trim. Qed.

(** X2: when the matcher fires on a text, the trimmer removes at least the
    literal that the text ends with. *)
Theorem matched_text_is_shortened (s : bytes) (stops : list bytes) :
  ends_with_any s stops = true →
  ∃ t, t ∈ stops ∧ t ≠ [] ∧ t `suffix_of` s
       ∧ length (trim_at_stop_first_occurrence s stops) + length t ≤ length s.
Proof.
  intros (t & Ht & Hne & Hs)%ends_with_any_spec.
  exists t. repeat (split; [done|]).
  pose proof (suffix_length _ _ Hs) as Hl.
  pose proof (trim_scan_stop_at s stops) as H.
  destruct (trim_scan s stops None) as [c|] eqn:E.
  - rewrite (trim_at_least s stops c H). destruct H as [_ Hmin].
    assert (c ≤ length s - length t).
    { apply Hmin. exists t. eauto using suffix_occurs_at. }
    rewrite length_take. lia.
  - exfalso. apply (H (length s - length t)).
    exists t. eauto using suffix_occurs_at.
Qed.

Lemma matched_text_is_shortened_witness :
  ∃ t, t ∈ main_stops ∧ t ≠ [] ∧ t `suffix_of` lit "a</s>b</s>"
       ∧ length (trim_at_stop_first_occurrence (lit "a</s>b</s>") main_stops)
         + length t ≤ length (lit "a</s>b</s>").
Proof.
  apply (matched_text_is_shortened (lit "a</s>b</s>") main_stops).
  reflexivity.
Defined.

(** X3: the least sentence end is what [find_first_sentence_end_zh]
    returns: the least offset that is the end of an occurrence of "。",
    "！" or "？" or the offset of a line break, and [npos] when the text has
    neither. *)
Theorem first_sentence_end_is_least (s : bytes) :
  is_least (sentence_end_at s) (find_first_sentence_end_zh s).
Proof. apply first_sentence_end_least. Qed.

(** X4: the normalized text neither starts nor ends with a space, a tab or
    a line break. *)
Theorem normalize_no_outer_white_space (s : bytes) (c : byte) :
  (head (normalize_one_sentence s) = Some c → is_ws c = false)
  ∧ (last (normalize_one_sentence s) = Some c → is_ws c = false).
Proof.
  split; [apply normalize_no_ws_front | apply normalize_no_ws_back].
Qed.

(** X5: in the normalized text a sentence terminator can only be the very
    end of the text: nothing follows an occurrence of "。", "！" or "？". *)
Theorem normalize_terminator_last (s : bytes) :
  Forall (λ e, tail_closed e (normalize_one_sentence s)) ends.
Proof.
  apply Forall_forall. intros e He. by apply normalize_tail_closed.
Qed.

(** X6: the strings that the normalizer leaves unchanged are exactly the
    strings in normal form. *)
Theorem normalize_fixed_iff_normal_form (s : bytes) :
  normalize_one_sentence s = s ↔ normal_form s.
Proof.
  split.
  - intros <-. apply normalize_normal_form.
  - apply normal_form_fixed.
Qed.

(** X7: a text made of white space and carriage returns only is normalized
    to the empty text. *)
Theorem normalize_blank_text (s : bytes) :
  Forall (λ c, is_ws c = true ∨ c = Str.CR) s → normalize_one_sentence s = [].
Proof.
  intros Hs. unfold normalize_one_sentence.
  rewrite strip_front_all_ws; [done|].
  apply Forall_forall. intros c Hc.
  eapply elem_of_prefix in Hc; [|apply cut_sentence_prefix].
  apply list_elem_of_filter in Hc as [Hne Hc].
  rewrite Forall_forall in Hs. by destruct (Hs c Hc).
Qed.

Lemma normalize_blank_text_witness :
  normalize_one_sentence [Str.SP; Str.CR; Str.LF; Str.TAB; Str.SP] = [].
Proof.
  apply normalize_blank_text. by repeat constructor.
Defined.

(** X8: when the anchor repair fires, its second normalization changes
    nothing: the output of [main] is the normalized text, from the first
    occurrence of the anchor on when there is one. *)
Theorem anchor_repair_drops_prefix (stops : list bytes) (key b : bytes) :
  solid key →
  postprocess stops key b
  = let out2 := normalize_one_sentence (trim_at_stop_first_occurrence b stops) in
    match Str.find out2 key with
    | Some p => drop p out2
    | None => out2
    end.
Proof. apply postprocess_repair. Qed.

Lemma anchor_repair_drops_prefix_witness :
  postprocess main_stops anchor_key (lit "好的，LR(0)项目集")
  = drop 9 (lit "好的，LR(0)项目集").
Proof.
  apply (anchor_repair_drops_prefix main_stops anchor_key
           (lit "好的，LR(0)项目集")).
  split; [done | by repeat constructor].
Defined.

(** X9: the output of [main] either does not hold the anchor or starts
    with it. *)
Theorem anchor_absent_or_leading (stops : list bytes) (key b : bytes) :
  solid key →
  Str.find (postprocess stops key b) key = None
  ∨ Str.find (postprocess stops key b) key = Some 0.
Proof.
  intros Hkey. rewrite postprocess_repair by done. simpl.
  set (out2 := normalize_one_sentence _).
  destruct (Str.find out2 key) as [p|] eqn:F; [|by left].
  right. destruct (find_Some_drop _ _ _ F) as [post Hd]. rewrite Hd.
  apply find_prefix. by exists post.
Qed.

Lemma anchor_absent_or_leading_witness :
  Str.find (postprocess main_stops anchor_key (lit "好的，LR(0)项目集"))
    anchor_key = None
  ∨ Str.find (postprocess main_stops anchor_key (lit "好的，LR(0)项目集"))
      anchor_key = Some 0.
Proof.
  apply (anchor_absent_or_leading main_stops anchor_key).
  split; [done | by repeat constructor].
Defined.

(** X10: whatever the stop list and the anchor, the text that [main]
    prints is in normal form (no carriage return, tab or line break, no
    white space at either end, no two spaces in a row, a terminator only at
    the end) and is not longer than the buffer. *)
Theorem printed_text_normal_form (stops : list bytes) (key b : bytes) :
  normal_form (postprocess stops key b)
  ∧ (∀ p, ¬ occurs_at [Str.SP; Str.SP] (postprocess stops key b) p)
  ∧ length (postprocess stops key b) ≤ length b.
Proof.
  pose proof (postprocess_normal_form stops key b) as H.
  split; [done|]. split.
  - eapply single_spaced_no_double. apply H.
  - rewrite <- (length_fmap blank b).
    apply sublist_length, postprocess_sublist.
Qed.

(** * Further properties of the generation loop *)

Section Loop.

Implicit Types (eng : engine) (stops : list bytes) (r i k n : nat).

Lemma gen_loop_not_at_stop eng stops r : ∀ i (out : bytes),
  ends_with_any out stops = false →
  ends_with_any (gen_loop eng stops r i out).2 stops = false.
Proof.
  induction r as [|r IH]; intros i out Hout; simpl; [done|].
  destruct (tok_is_eos (eng i)); [done|].
  destruct (piece_nb (eng i) <=? 0)%Z; [done|].
  destruct (ends_with_any (out ++ fragment (eng i)) stops) eqn:E.
  - simpl. apply not_ends_with_no_stop. intros p. apply no_stop_after_trim.
  - destruct (negb (decode_rc (eng i) =? 0)%Z); [done|]. by apply IH.
Qed.

Lemma gen_loop_within_budget eng stops r : ∀ i,
  let res := gen_loop eng stops r i (accumulated eng i) in
  (res = (i + r, accumulated eng (i + r)))
  ∨ (res.1 < i + r ∧ res.2 `prefix_of` accumulated eng (S res.1)).
Proof.
  induction r as [|r IH]; intros i; simpl.
  - left. by rewrite Nat.add_0_r.
  - destruct (tok_is_eos (eng i)).
    { right. simpl. split; [lia | by apply prefix_app_r]. }
    destruct (piece_nb (eng i) <=? 0)%Z.
    { right. simpl. split; [lia | by apply prefix_app_r]. }
    destruct (ends_with_any _ stops).
    { right. simpl. split; [lia | apply trim_prefix]. }
    destruct (negb (decode_rc (eng i) =? 0)%Z).
    { right. simpl. split; [lia | done]. }
    specialize (IH (S i)). simpl in IH.
    replace (i + S r) with (S i + r) by lia. exact IH.
Qed.

End Loop.

(** X11: whatever the engine answers, the buffer with which the loop is
    left does not end with a non-empty stop literal. *)
Theorem loop_exit_not_at_stop (eng : engine) (stops : list bytes) (n : nat) :
  ends_with_any (gen_loop eng stops n 0 []).2 stops = false.
Proof.
  apply gen_loop_not_at_stop. apply not_ends_with_no_stop.
  intros p (t & _ & Hne & Ho). by apply occurs_at_nil in Ho.
Qed.

(** X12: the loop never appends more than [n] fragments: either it runs
    out of budget, with [i = n] and the first [n] fragments in the buffer,
    or it is left in an iteration [i < n] with a prefix of the first
    [i + 1] fragments in the buffer. *)
Theorem loop_within_budget (eng : engine) (stops : list bytes) (n : nat) :
  gen_loop eng stops n 0 [] = (n, accumulated eng n)
  ∨ ((gen_loop eng stops n 0 []).1 < n
     ∧ (gen_loop eng stops n 0 []).2
         `prefix_of` accumulated eng (S (gen_loop eng stops n 0 []).1)).
Proof. exact (gen_loop_within_budget eng stops n 0). Qed.

(** X13: when no iteration ends the generation, the loop stops by the
    budget, after exactly [n] fragments. *)
Theorem loop_budget_exhausted (eng : engine) (stops : list bytes) (n : nat) :
  (∀ i, i < n → goes_on eng stops i) →
  gen_loop eng stops n 0 [] = (n, accumulated eng n).
Proof.
  intros Hgo. rewrite (gen_loop_goes_on eng stops n n) by done.
  by rewrite Nat.sub_diag.
Qed.

Lemma loop_budget_exhausted_witness :
  gen_loop eng_three_pieces main_stops 3 0 [] = (3, lit "abc").
Proof.
  apply (loop_budget_exhausted eng_three_pieces main_stops 3).
  intros i Hi.
  destruct i as [|[|[|i]]]; [by vm_compute | by vm_compute | by vm_compute | lia].
Defined.

(** X14: when the fragment of iteration [k] completes a stop literal, the
    loop is left in that iteration with the accumulated text cut at its
    first stop literal. *)
Theorem loop_stop_match (eng : engine) (stops : list bytes) (n k : nat) :
  k < n →
  (∀ i, i < k → goes_on eng stops i) →
  tok_is_eos (eng k) = false →
  (0 < piece_nb (eng k))%Z →
  ends_with_any (accumulated eng (S k)) stops = true →
  gen_loop eng stops n 0 []
  = (k, trim_at_stop_first_occurrence (accumulated eng (S k)) stops).
Proof.
  intros Hk Hgo Heos Hnb Hstop.
  rewrite (gen_loop_goes_on eng stops n k) by (done || lia).
  replace (n - k) with (S (n - S k)) by lia. simpl.
  rewrite Heos. apply Z.leb_gt in Hnb. rewrite Hnb.
  simpl in Hstop. by rewrite Hstop.
Qed.

Lemma loop_stop_match_witness :
  gen_loop eng_stop_match main_stops 8 0 [] = (1, lit "定义").
Proof.
  apply (loop_stop_match eng_stop_match main_stops 8 1).
  - lia.
  - intros i Hi. assert (i = 0) as -> by lia. by vm_compute.
  - reflexivity.
  - by vm_compute.
  - reflexivity.
Defined.

(** * Reading and printing ids *)

Section Numbers.

Implicit Types (s r cur tok : bytes) (c : byte) (n a d z : Z).

Lemma digit_char_spec d :
  (0 ≤ d < 10)%Z →
  isdigit (digit_char d) = true ∧ digit_value (digit_char d) = d.
Proof.
  intros Hd.
  assert (d = 0 ∨ d = 1 ∨ d = 2 ∨ d = 3 ∨ d = 4 ∨ d = 5 ∨ d = 6 ∨ d = 7
          ∨ d = 8 ∨ d = 9)%Z as H by lia.
  repeat destruct H as [->|H]; try subst d; by vm_compute.
Qed.

Lemma isdigit_not_other c :
  isdigit c = true →
  isspace c = false ∧ is_sep c = false
  ∧ Byte.eqb c "-" = false ∧ Byte.eqb c "+" = false.
Proof. destruct c; intros H; try discriminate H; done. Qed.

Lemma show_digits_S fuel n (acc : bytes) :
  show_digits (S fuel) n acc
  = if (n <? 10)%Z then digit_char (n `mod` 10) :: acc
    else show_digits fuel (n `div` 10) (digit_char (n `mod` 10) :: acc).
Proof. done. Qed.

Lemma show_digits_acc fuel : ∀ n (acc : bytes),
  show_digits fuel n acc = show_digits fuel n [] ++ acc.
Proof.
  induction fuel as [|f IH]; intros n acc; [done|].
  rewrite !show_digits_S. destruct (n <? 10)%Z; [done|].
  rewrite (IH _ (_ :: acc)), (IH _ [_]). by rewrite <- app_assoc.
Qed.

Lemma digits_value_digit a d r :
  (0 ≤ d < 10)%Z →
  digits_value a (digit_char d :: r) = digits_value (a * 10 + d) r.
Proof.
  intros [H1 H2]%digit_char_spec. simpl. by rewrite H1, H2.
Qed.

Lemma digits_value_stop a r : no_digit_ahead r → digits_value a r = a.
Proof. destruct r as [|c r]; simpl; [done|]. by intros ->. Qed.

(** With enough fuel, [show_digits] writes digits only, at least one, and
    reading them back gives [n]. *)
Lemma show_digits_value fuel : ∀ n,
  (0 ≤ n < 2 ^ Z.of_nat (S fuel))%Z →
  Forall (λ c, isdigit c = true) (show_digits (S fuel) n [])
  ∧ show_digits (S fuel) n [] ≠ []
  ∧ ∃ m, ∀ a r, digits_value a (show_digits (S fuel) n [] ++ r)
                = digits_value (a * m + n) r.
Proof.
  induction fuel as [|f IH]; intros n Hn; rewrite show_digits_S.
  - assert (n < 10)%Z as Hlt by (change (2 ^ Z.of_nat 1)%Z with 2%Z in Hn; lia).
    apply Z.ltb_lt in Hlt as ->.
    assert (n `mod` 10 = n)%Z as -> by (apply Z.mod_small; simpl in Hn; lia).
    assert (0 ≤ n < 10)%Z as Hd by (change (2 ^ Z.of_nat 1)%Z with 2%Z in Hn; lia).
    split; [constructor; [by apply digit_char_spec | done]|].
    split; [done|]. exists 10%Z. intros a r. by apply digits_value_digit.
  - assert (0 ≤ n `mod` 10 < 10)%Z as Hd by (apply Z.mod_pos_bound; lia).
    destruct (n <? 10)%Z eqn:Hlt.
    + apply Z.ltb_lt in Hlt.
      assert (n `mod` 10 = n)%Z as Hm by (apply Z.mod_small; lia).
      split; [constructor; [by apply digit_char_spec | done]|].
      split; [done|]. exists 10%Z. intros a r.
      rewrite <- Hm at 2. by apply digits_value_digit.
    + apply Z.ltb_ge in Hlt. rewrite show_digits_acc.
      destruct (IH (n `div` 10)%Z) as (Hall & Hne & m & Hm).
      { rewrite Nat2Z.inj_succ, Z.pow_succ_r in Hn by lia.
        split; [apply Z.div_pos; lia|].
        apply Z.div_lt_upper_bound; lia. }
      split; [apply Forall_app; split;
                [done | constructor; [by apply digit_char_spec | done]]|].
      split; [by destruct (show_digits (S f) _ [])|].
      exists (m * 10)%Z. intros a r. rewrite <- app_assoc. simpl.
      rewrite Hm, digits_value_digit by done. f_equal.
      pose proof (Z.div_mod n 10). lia.
Qed.

Lemma show_nat_value n :
  (0 ≤ n)%Z →
  Forall (λ c, isdigit c = true) (show_nat n)
  ∧ show_nat n ≠ []
  ∧ ∀ r, digits_value 0 (show_nat n ++ r) = digits_value n r.
Proof.
  intros Hn. unfold show_nat.
  destruct (show_digits_value (Z.to_nat (Z.log2 n)) n) as (H1 & H2 & m & H3).
  - split; [done|]. rewrite Nat2Z.inj_succ, Z2Nat.id by apply Z.log2_nonneg.
    destruct (decide (n = 0%Z)) as [->|Hne]; [done|].
    apply Z.log2_spec. lia.
  - split; [done|]. split; [done|]. intros r. by rewrite H3.
Qed.

Lemma stoll_minus s : stoll ("-"%byte :: s)
  = match s with
    | c :: _ =>
        if isdigit c then
          if (INT64_MIN <=? - digits_value 0 s)%Z
             && (- digits_value 0 s <=? INT64_MAX)%Z
          then Ok (- digits_value 0 s)%Z else Throw out_of_range
        else Throw invalid_argument
    | [] => Throw invalid_argument
    end.
Proof. done. Qed.

Lemma stoll_digit c s :
  isdigit c = true →
  stoll (c :: s)
  = if (INT64_MIN <=? digits_value 0 (c :: s))%Z
       && (digits_value 0 (c :: s) <=? INT64_MAX)%Z
    then Ok (digits_value 0 (c :: s)) else Throw out_of_range.
Proof.
  intros Hc. destruct (isdigit_not_other c Hc) as (H1 & _ & H2 & H3).
  unfold stoll. cbn [skip_space]. rewrite H1, H2, H3. by rewrite Hc.
Qed.

(** Reading back what [show_int64] writes. *)
Lemma stoll_show z r :
  in_int64 z → no_digit_ahead r → stoll (show_int64 z ++ r) = Ok z.
Proof.
  intros [Hlo Hhi] Hr. unfold show_int64.
  destruct (z <? 0)%Z eqn:Hz.
  - apply Z.ltb_lt in Hz.
    destruct (show_nat_value (- z)) as (Hall & Hne & Hv); [lia|].
    rewrite <- app_comm_cons, stoll_minus.
    destruct (show_nat (- z)) as [|c l] eqn:E; [done|].
    rewrite <- app_comm_cons. apply Forall_cons in Hall as [Hc _].
    rewrite Hc, app_comm_cons, Hv, digits_value_stop by done.
    rewrite Z.opp_involutive.
    apply Z.leb_le in Hlo, Hhi. by rewrite Hlo, Hhi.
  - apply Z.ltb_ge in Hz.
    destruct (show_nat_value z) as (Hall & Hne & Hv); [lia|].
    destruct (show_nat z) as [|c l] eqn:E; [done|].
    rewrite <- app_comm_cons. apply Forall_cons in Hall as [Hc _].
    rewrite stoll_digit, app_comm_cons, Hv, digits_value_stop by done.
    apply Z.leb_le in Hlo, Hhi. by rewrite Hlo, Hhi.
Qed.

Lemma show_int64_no_sep z :
  show_int64 z ≠ [] ∧ Forall (λ c, is_sep c = false) (show_int64 z).
Proof.
  assert (∀ n, (0 ≤ n)%Z →
            show_nat n ≠ [] ∧ Forall (λ c, is_sep c = false) (show_nat n)) as H.
  { intros n Hn. destruct (show_nat_value n Hn) as (Hall & Hne & _).
    split; [done|]. eapply Forall_impl; [exact Hall|].
    intros c Hc. by destruct (isdigit_not_other c Hc) as (_ & ? & _). }
  unfold show_int64. destruct (z <? 0)%Z eqn:Hz.
  - apply Z.ltb_lt in Hz. destruct (H (- z)%Z) as [_ Hs]; [lia|].
    split; [done | by constructor].
  - apply Z.ltb_ge in Hz. by apply H.
Qed.

End Numbers.

Section IdList.

Implicit Types (s a b cur tok : bytes) (ids : list Z) (sep c : byte).

Lemma stoll_in_int64 cur z : stoll cur = Ok z → in_int64 z.
Proof.
  unfold stoll, in_int64.
  set (sgn := match skip_space cur with
              | c :: r =>
                  if Byte.eqb c "-" then (true, r)
                  else if Byte.eqb c "+" then (false, r)
                  else (false, skip_space cur)
              | [] => (false, skip_space cur)
              end).
  destruct sgn as [neg s2]. destruct s2 as [|c r]; [done|].
  destruct (isdigit c); [|done].
  destruct (_ && _) eqn:E; [|done].
  intros [= <-]. apply andb_true_iff in E as [H1 H2].
  apply Z.leb_le in H1, H2. done.
Qed.

Lemma parse_loop_token tok : ∀ s ids cur,
  Forall (λ c, is_sep c = false) tok →
  parse_ids_loop (tok ++ s) ids cur = parse_ids_loop s ids (cur ++ tok).
Proof.
  induction tok as [|c tok IH]; intros s ids cur Htok.
  - by rewrite app_nil_r.
  - apply Forall_cons in Htok as [Hc Htok]. simpl. rewrite Hc.
    rewrite IH by done. by rewrite <- app_assoc.
Qed.

Lemma parse_loop_compose sep b : is_sep sep = true →
  ∀ a ids cur,
    parse_ids_loop (a ++ sep :: b) ids cur
    = result_bind (parse_ids_loop a ids cur) (λ ids', parse_ids_loop b ids' []).
Proof.
  intros Hsep. induction a as [|c a IH]; intros ids cur; simpl.
  - rewrite Hsep. destruct cur as [|x cur]; simpl; [done|].
    by destruct (stoll (x :: cur)).
  - destruct (is_sep c); [|apply IH].
    destruct (negb (Str.empty cur)); [|apply IH].
    destruct (stoll cur); simpl; [apply IH | done].
Qed.

Lemma parse_loop_acc ids0 : ∀ s ids cur,
  parse_ids_loop s (ids0 ++ ids) cur
  = result_map (app ids0) (parse_ids_loop s ids cur).
Proof.
  induction s as [|c s IH]; intros ids cur; simpl.
  - destruct (negb (Str.empty cur)); [|done].
    destruct (stoll cur); simpl; [by rewrite app_assoc | done].
  - destruct (is_sep c); [|apply IH].
    destruct (negb (Str.empty cur)); [|apply IH].
    destruct (stoll cur); simpl; [|done].
    rewrite <- app_assoc. apply IH.
Qed.

Lemma parse_ids_csv_compose a sep b :
  is_sep sep = true →
  parse_ids_csv (a ++ sep :: b)
  = result_bind (parse_ids_csv a)
      (λ x, result_map (app x) (parse_ids_csv b)).
Proof.
  intros Hsep. unfold parse_ids_csv. rewrite parse_loop_compose by done.
  destruct (parse_ids_loop a [] []) as [x|e]; simpl; [|done].
  rewrite <- (app_nil_r x) at 1. apply parse_loop_acc.
Qed.

Lemma parse_ids_csv_token tok :
  tok ≠ [] → Forall (λ c, is_sep c = false) tok →
  parse_ids_csv tok = result_map (λ v, [v]) (stoll tok).
Proof.
  intros Hne Htok. unfold parse_ids_csv.
  rewrite <- (app_nil_r tok) at 1. rewrite parse_loop_token by done.
  simpl. by destruct tok.
Qed.

Lemma parse_loop_in_int64 : ∀ s ids cur ids',
  Forall in_int64 ids →
  parse_ids_loop s ids cur = Ok ids' → Forall in_int64 ids'.
Proof.
  induction s as [|c s IH]; intros ids cur ids' Hids; simpl.
  - destruct (negb (Str.empty cur)); [|by intros [= <-]].
    destruct (stoll cur) as [v|] eqn:E; simpl; [|done].
    intros [= <-]. apply Forall_app. split; [done|].
    constructor; [by eapply stoll_in_int64 | done].
  - destruct (is_sep c); [|by apply IH].
    destruct (negb (Str.empty cur)); [|by apply IH].
    destruct (stoll cur) as [v|] eqn:E; simpl; [|done].
    apply IH. apply Forall_app. split; [done|].
    constructor; [by eapply stoll_in_int64 | done].
Qed.

Lemma join_ids_cons sep z ids :
  ids ≠ [] → join_ids sep (z :: ids) = show_int64 z ++ sep :: join_ids sep ids.
Proof. by destruct ids. Qed.

Lemma parse_join_ids sep ids :
  is_sep sep = true → Forall in_int64 ids →
  parse_ids_csv (join_ids sep ids) = Ok ids.
Proof.
  intros Hsep. induction 1 as [|z ids Hz Hids IH]; [done|].
  assert (parse_ids_csv (show_int64 z) = Ok [z]) as Hone.
  { destruct (show_int64_no_sep z) as [Hne Hns].
    rewrite parse_ids_csv_token by done.
    rewrite <- (app_nil_r (show_int64 z)). by rewrite stoll_show. }
  destruct ids as [|z' ids]; [done|].
  rewrite join_ids_cons, parse_ids_csv_compose by done.
  by rewrite Hone, IH.
Qed.

End IdList.

(** X15: [parse_ids_csv] reads the two sides of a separator one after the
    other: the ids of [a ++ sep :: b] are the ids of [a] followed by the
    ids of [b], and the first exception met is the one thrown. *)
Theorem parse_ids_around_separator (a b : bytes) (sep : byte) :
  is_sep sep = true →
  parse_ids_csv (a ++ sep :: b)
  = result_bind (parse_ids_csv a)
      (λ x, result_map (app x) (parse_ids_csv b)).
Proof. apply parse_ids_csv_compose. Qed.

Lemma parse_ids_around_separator_witness :
  parse_ids_csv (lit "1,2" ++ ";"%byte :: lit "x") = Throw invalid_argument.
Proof.
  rewrite (parse_ids_around_separator (lit "1,2") (lit "x") ";");
    reflexivity.
Defined.

(** X16: on a non-empty text without separator, [parse_ids_csv] is
    [std::stoll]: one id, or the exception of [std::stoll]. *)
Theorem parse_ids_single_token (tok : bytes) :
  tok ≠ [] → Forall (λ c, is_sep c = false) tok →
  parse_ids_csv tok = result_map (λ v, [v]) (stoll tok).
Proof. apply parse_ids_csv_token. Qed.

Lemma parse_ids_single_token_witness :
  parse_ids_csv (lit "12abc") = Ok [12%Z].
Proof.
  rewrite (parse_ids_single_token (lit "12abc"));
    [reflexivity | done | by repeat constructor].
Defined.

(** X17: a text made of separators only has no id. *)
Theorem parse_ids_separators_only (s : bytes) :
  Forall (λ c, is_sep c = true) s → parse_ids_csv s = Ok [].
Proof.
  unfold parse_ids_csv. induction 1 as [|c s Hc _ IH]; simpl; [done|].
  by rewrite Hc.
Qed.

Lemma parse_ids_separators_only_witness :
  parse_ids_csv (lit ", ;;") = Ok [].
Proof.
  apply parse_ids_separators_only. by repeat constructor.
Defined.

(** X18: ids of 64 bits written in decimal and joined by one of the
    separators are read back as they are. *)
Theorem parse_ids_round_trip (sep : byte) (ids : list Z) :
  is_sep sep = true → Forall in_int64 ids →
  parse_ids_csv (join_ids sep ids) = Ok ids.
Proof. apply parse_join_ids. Qed.

Lemma parse_ids_round_trip_witness :
  parse_ids_csv (join_ids "," [3; -14; 9223372036854775807]%Z)
  = Ok [3; -14; 9223372036854775807]%Z.
Proof.
  apply (parse_ids_round_trip "," [3; -14; 9223372036854775807]%Z).
  - reflexivity.
  - repeat constructor; by vm_compute.
Defined.

(** X19: every id that [parse_ids_csv] returns fits in 64 bits. *)
Theorem parse_ids_in_int64 (s : bytes) (ids : list Z) :
  parse_ids_csv s = Ok ids → Forall in_int64 ids.
Proof. by apply parse_loop_in_int64. Qed.

Lemma parse_ids_in_int64_witness :
  Forall in_int64 [1; -2]%Z.
Proof.
  apply (parse_ids_in_int64 (lit "1 -2")). reflexivity.
Defined.

(** * The evidence loader *)

Section Loader.

Implicit Types (db : sqlite) (ctx s : bytes) (row : Z * option bytes).

Lemma append_row_nil ctx row :
  append_row ctx row = [] ↔ ctx = [] ∧ row.2 = None.
Proof.
  unfold append_row. destruct (row.2) as [content|].
  - split; [|by intros [_ ?]]. intros H.
    apply app_eq_nil in H as [_ H]. done.
  - split; [done | by intros [? _]].
Qed.

Lemma foldl_append_row_nil rows : ∀ ctx,
  foldl append_row ctx rows = [] ↔ ctx = [] ∧ Forall (λ row, row.2 = None) rows.
Proof.
  induction rows as [|row rows IH]; intros ctx; simpl.
  - split; [done | by intros [? _]].
  - rewrite IH, append_row_nil, Forall_cons. tauto.
Qed.

Lemma c_str_no_nul s : Str.NUL ∉ c_str s.
Proof.
  induction s as [|c s IH]; simpl; [apply not_elem_of_nil|].
  destruct (Byte.eqb c Str.NUL) eqn:E; [apply not_elem_of_nil|].
  apply byte_eqb_neq in E. apply not_elem_of_cons. split; [congruence | done].
Qed.

Lemma show_int64_no_nul z : Str.NUL ∉ show_int64 z.
Proof.
  assert (∀ n, (0 ≤ n)%Z → Str.NUL ∉ show_nat n) as H.
  { intros n Hn Hin. destruct (show_nat_value n Hn) as (Hall & _).
    rewrite Forall_forall in Hall. by apply Hall in Hin. }
  unfold show_int64. destruct (z <? 0)%Z eqn:Hz.
  - apply Z.ltb_lt in Hz. apply not_elem_of_cons. split; [done|].
    apply H. lia.
  - apply Z.ltb_ge in Hz. by apply H.
Qed.

Lemma append_row_no_nul ctx row :
  Str.NUL ∉ ctx → Str.NUL ∉ append_row ctx row.
Proof.
  intros Hctx. unfold append_row. destruct (row.2) as [content|]; [|done].
  rewrite !elem_of_app. intros [H|[H|[H|[H|[H|H]]]]].
  - done.
  - by vm_compute in H; repeat (apply elem_of_cons in H as [?|H]; [done|]);
      apply elem_of_nil in H.
  - by apply show_int64_no_nul in H.
  - by vm_compute in H; repeat (apply elem_of_cons in H as [?|H]; [done|]);
      apply elem_of_nil in H.
  - by apply c_str_no_nul in H.
  - apply list_elem_of_singleton in H. done.
Qed.

Lemma foldl_append_row_no_nul rows : ∀ ctx,
  Str.NUL ∉ ctx → Str.NUL ∉ foldl append_row ctx rows.
Proof.
  induction rows as [|row rows IH]; intros ctx Hctx; simpl; [done|].
  by apply IH, append_row_no_nul.
Qed.

End Loader.

(** X20: the loader returns the empty text exactly when there is no id,
    the database cannot be opened, the statement cannot be prepared, or no
    row delivered has a text; these are the cases in which [main] warns
    that no evidence was loaded. *)
Theorem loaded_context_empty_iff (db : sqlite)
    (db_path table content_col : bytes) (ids : list Z) :
  load_context_from_sqlite_by_ids db db_path table content_col ids = []
  ↔ ids = []
    ∨ db_open db (c_str db_path) = false
    ∨ db_prepare db (c_str db_path)
        (c_str (sql_text table content_col ids)) = false
    ∨ Forall (λ row, row.2 = None)
        (db_rows db (c_str db_path)
           (c_str (sql_text table content_col ids)) ids).
Proof.
  unfold load_context_from_sqlite_by_ids.
  destruct ids as [|z ids]; [by split; [left|]|].
  destruct (db_open db _); simpl; [|by split; [right; left|]].
  destruct (db_prepare db _ _); simpl; [|by split; [right; right; left|]].
  rewrite foldl_append_row_nil. split.
  - intros [_ H]. by right; right; right.
  - intros [H|[H|[H|H]]]; done.
Qed.

(** X21: the text that the loader returns holds no zero byte: read as a C
    string it is whole. *)
Theorem loaded_context_no_nul (db : sqlite)
    (db_path table content_col : bytes) (ids : list Z) :
  c_str (load_context_from_sqlite_by_ids db db_path table content_col ids)
  = load_context_from_sqlite_by_ids db db_path table content_col ids.
Proof.
  assert (∀ s, Str.NUL ∉ s → c_str s = s) as Hc.
  { induction s as [|c s IH]; [done|]. intros [Hne Hs]%not_elem_of_cons.
    simpl. apply not_eq_sym, byte_eqb_neq in Hne. rewrite Hne.
    by rewrite IH. }
  apply Hc. unfold load_context_from_sqlite_by_ids.
  destruct ids as [|z ids]; [apply not_elem_of_nil|].
  destruct (negb _); [apply not_elem_of_nil|].
  destruct (negb _); [apply not_elem_of_nil|].
  apply foldl_append_row_no_nul, not_elem_of_nil.
Qed.

(** * The command line *)

Section CommandLine.

Context {N : Cli.numerics}.

Implicit Types (args pre post rest : list bytes) (a o v name : bytes)
  (c : Cli.config N).

Lemma args_strong_ind (P : list bytes → Prop) :
  (∀ l, (∀ k, length k < length l → P k) → P l) → ∀ l, P l.
Proof.
  intros H l. remember (length l) as n eqn:Hn. revert l Hn.
  induction n as [n IH] using lt_wf_ind. intros l ->.
  apply H. intros k Hk. by eapply IH.
Qed.

(** One turn of the option loop, with [get_arg]. *)
Lemma parse_args_step a rest c :
  Cli.parse_args (a :: rest) c
  = match Cli.classify a with
    | Cli.TakesValue name set =>
        match Cli.get_arg rest with
        | None => Cli.MissingValue name
        | Some (v, rest') => Cli.parse_args rest' (set v c)
        end
    | Cli.Flag set => Cli.parse_args rest (set c)
    | Cli.HelpOpt => Cli.Help
    | Cli.Unknown => Cli.parse_args rest c
    end.
Proof. simpl. destruct (Cli.classify a); by destruct rest. Qed.

Lemma parse_args_app pre : ∀ rest c c',
  Cli.parse_args pre c = Cli.Parsed c' →
  Cli.parse_args (pre ++ rest) c = Cli.parse_args rest c'.
Proof.
  induction pre as [pre IH] using args_strong_ind. intros rest c c'.
  destruct pre as [|a pre]; [by intros [= ->]|].
  rewrite <- app_comm_cons, !parse_args_step.
  destruct (Cli.classify a) as [name set|set| |].
  - destruct pre as [|v pre]; [done|]. simpl. apply IH. simpl. lia.
  - apply IH. simpl. lia.
  - done.
  - apply IH. simpl. lia.
Qed.

Lemma parse_args_missing args : ∀ c name,
  Cli.parse_args args c = Cli.MissingValue name →
  ∃ pre o (set : bytes → Cli.config N → Cli.config N) c',
    args = pre ++ [o] ∧ Cli.parse_args pre c = Cli.Parsed c'
    ∧ Cli.classify o = Cli.TakesValue name set.
Proof.
  induction args as [args IH] using args_strong_ind. intros c name.
  destruct args as [|a args]; [done|]. rewrite parse_args_step.
  destruct (Cli.classify a) as [name' set|set| |] eqn:E.
  - destruct args as [|v args]; simpl.
    + intros [= ->]. by exists [], a, set, c.
    + intros (pre & o & set' & c' & -> & Hp & Ho)%IH; [|simpl; lia].
      exists (a :: v :: pre), o, set', c'. split; [done|]. split; [|done].
      rewrite parse_args_step, E. done.
  - intros (pre & o & set' & c' & -> & Hp & Ho)%IH; [|simpl; lia].
    exists (a :: pre), o, set', c'. split; [done|]. split; [|done].
    rewrite parse_args_step, E. done.
  - done.
  - intros (pre & o & set' & c' & -> & Hp & Ho)%IH; [|simpl; lia].
    exists (a :: pre), o, set', c'. split; [done|]. split; [|done].
    rewrite parse_args_step, E. done.
Qed.

Lemma parse_args_help args : ∀ c,
  Cli.parse_args args c = Cli.Help →
  ∃ pre o post c', args = pre ++ o :: post
                   ∧ Cli.parse_args pre c = Cli.Parsed c'
                   ∧ Cli.classify o = Cli.HelpOpt (N := N).
Proof.
  induction args as [args IH] using args_strong_ind. intros c.
  destruct args as [|a args]; [done|]. rewrite parse_args_step.
  destruct (Cli.classify a) as [name' set|set| |] eqn:E.
  - destruct args as [|v args]; simpl; [done|].
    intros (pre & o & post & c' & -> & Hp & Ho)%IH; [|simpl; lia].
    exists (a :: v :: pre), o, post, c'. split; [done|]. split; [|done].
    rewrite parse_args_step, E. done.
  - intros (pre & o & post & c' & -> & Hp & Ho)%IH; [|simpl; lia].
    exists (a :: pre), o, post, c'. split; [done|]. split; [|done].
    rewrite parse_args_step, E. done.
  - intros _. by exists [], a, args, c.
  - intros (pre & o & post & c' & -> & Hp & Ho)%IH; [|simpl; lia].
    exists (a :: pre), o, post, c'. split; [done|]. split; [|done].
    rewrite parse_args_step, E. done.
Qed.

Lemma arg_is_true a s : Cli.arg_is a s = true → a = lit s.
Proof. apply bool_decide_eq_true. Qed.

(** Which options set [model_path]. *)
Lemma classify_model_path a :
  match Cli.classify (N := N) a with
  | Cli.TakesValue _ set =>
      ((a = lit "--model" ∨ a = lit "-m")
       ∧ ∀ v c, Cli.model_path (set v c) = v)
      ∨ (∀ v c, Cli.model_path (set v c) = Cli.model_path c)
  | Cli.Flag set => ∀ c, Cli.model_path (set c) = Cli.model_path c
  | _ => True
  end.
Proof.
  unfold Cli.classify.
  destruct (Cli.arg_is a "--model" || Cli.arg_is a "-m") eqn:E.
  { left. split; [|done].
    apply orb_true_iff in E as [E|E]; apply arg_is_true in E; auto. }
  repeat (match goal with
          | |- context [if ?b then _ else _] => destruct b
          end; [by (right || idtac)|]).
  done.
Qed.

Lemma parse_args_model_path args : ∀ c c',
  Cli.parse_args args c = Cli.Parsed c' →
  Cli.model_path c' = Cli.model_path c
  ∨ ∃ pre o post, args = pre ++ o :: Cli.model_path c' :: post
                  ∧ (o = lit "--model" ∨ o = lit "-m").
Proof.
  induction args as [args IH] using args_strong_ind. intros c c'.
  destruct args as [|a args]; [intros [= ->]; by left|].
  rewrite parse_args_step. pose proof (classify_model_path a) as Hcl.
  destruct (Cli.classify a) as [name set|set| |].
  - destruct args as [|v args]; simpl; [done|].
    intros [Hm|(pre & o & post & -> & Ho)]%IH; [| |simpl; lia].
    + destruct Hcl as [[Ha Hset]|Hset].
      * right. exists [], a, args. rewrite Hm, Hset. done.
      * left. by rewrite Hm, Hset.
    + right. by exists (a :: v :: pre), o, post.
  - intros [Hm|(pre & o & post & -> & Ho)]%IH; [| |simpl; lia].
    + left. by rewrite Hm, Hcl.
    + right. by exists (a :: pre), o, post.
  - done.
  - intros [Hm|(pre & o & post & -> & Ho)]%IH; [| |simpl; lia].
    + by left.
    + right. by exists (a :: pre), o, post.
Qed.

End CommandLine.

(** X22: the options are read from left to right: when a first part of
    the arguments is read to its end, the rest is read with the variables
    as the first part has set them. *)
Theorem options_read_in_sequence (N : Cli.numerics)
    (pre rest : list bytes) (c c' : Cli.config N) :
  Cli.parse_args pre c = Cli.Parsed c' →
  Cli.parse_args (pre ++ rest) c = Cli.parse_args rest c'.
Proof. apply parse_args_app. Qed.

Lemma options_read_in_sequence_witness :
  Cli.parse_args ([lit "--db"; lit "d.db"] ++ [lit "--n"])
    (Cli.default_config Cli.no_numerics)
  = Cli.MissingValue (lit "--n").
Proof.
  rewrite (options_read_in_sequence Cli.no_numerics
             [lit "--db"; lit "d.db"] [lit "--n"]
             (Cli.default_config Cli.no_numerics)
             (Cli.set_sqlite_db (lit "d.db")
                (Cli.default_config Cli.no_numerics)));
    reflexivity.
Defined.

(** X23: the reading of the options ends with "Missing value for
    [name]" exactly when the last argument is an option with a value,
    named [name] in the message, and all the arguments before it are read
    to their end. *)
Theorem missing_value_iff_last_option (N : Cli.numerics)
    (args : list bytes) (c : Cli.config N) (name : bytes) :
  Cli.parse_args args c = Cli.MissingValue name
  ↔ ∃ pre o (set : bytes → Cli.config N → Cli.config N) c',
      args = pre ++ [o]
      ∧ Cli.parse_args pre c = Cli.Parsed c'
      ∧ Cli.classify o = Cli.TakesValue name set.
Proof.
  split; [apply parse_args_missing|].
  intros (pre & o & set & c' & -> & Hp & Ho).
  rewrite (parse_args_app _ _ _ _ Hp). simpl. by rewrite Ho.
Qed.

(** X24: the reading of the options ends with the usage text exactly when
    "--help" or "-h" stands where an option is read, the arguments before
    it being read to their end; after an option with a value it is taken
    as the value. *)
Theorem help_iff_read_as_option (N : Cli.numerics)
    (args : list bytes) (c : Cli.config N) :
  Cli.parse_args args c = Cli.Help
  ↔ ∃ pre o post c', args = pre ++ o :: post
                     ∧ Cli.parse_args pre c = Cli.Parsed c'
                     ∧ (o = lit "--help" ∨ o = lit "-h").
Proof.
  assert (∀ o, Cli.classify o = Cli.HelpOpt (N := N)
               ↔ (o = lit "--help" ∨ o = lit "-h")) as Hh.
  { intros o. split.
    - unfold Cli.classify.
      repeat match goal with
             | |- context [if ?b then _ else _] => destruct b eqn:?
             end; intros H; try discriminate H.
      match goal with
      | E : Cli.arg_is _ "--help" || _ = true |- _ =>
          apply orb_true_iff in E as [E|E]; apply arg_is_true in E; auto
      end.
    - intros [->| ->]; reflexivity. }
  split.
  - intros (pre & o & post & c' & -> & Hp & Ho)%parse_args_help.
    exists pre, o, post, c'. by rewrite <- Hh.
  - intros (pre & o & post & c' & -> & Hp & Ho).
    rewrite (parse_args_app _ _ _ _ Hp), parse_args_step.
    apply Hh in Ho. by rewrite Ho.
Qed.

(** X25: when [main] gets past its options, the model path is not empty
    and is the argument that follows an option "--model" or "-m". *)
Theorem model_path_from_option (N : Cli.numerics)
    (args : list bytes) (c : Cli.config N) :
  Cli.main_args N args = Cli.Parsed c →
  Cli.model_path c ≠ []
  ∧ ∃ pre o post, args = pre ++ o :: Cli.model_path c :: post
                  ∧ (o = lit "--model" ∨ o = lit "-m").
Proof.
  unfold Cli.main_args.
  destruct (Cli.parse_args args _) as [| | |c0] eqn:E; try done.
  destruct (Str.empty (Cli.model_path c0)) eqn:Hm; [done|].
  intros [= ->].
  assert (Cli.model_path c ≠ []) as Hne by (intros H; by rewrite H in Hm).
  split; [done|].
  apply parse_args_model_path in E as [E|E]; [|done].
  by rewrite E in Hne.
Qed.

Lemma model_path_from_option_witness :
  lit "m.gguf" ≠ []
  ∧ ∃ pre o post,
      [lit "--seed"; lit "7"; lit "-m"; lit "m.gguf"; lit "--debug-prompt"]
      = pre ++ o :: lit "m.gguf" :: post
      ∧ (o = lit "--model" ∨ o = lit "-m").
Proof.
  apply (model_path_from_option Cli.no_numerics
           [lit "--seed"; lit "7"; lit "-m"; lit "m.gguf";
            lit "--debug-prompt"]
           (Cli.set_debug_prompt true
              (Cli.set_model_path (lit "m.gguf")
                 (Cli.set_seed 0%Z (Cli.default_config Cli.no_numerics))))).
  reflexivity.
Defined.

(** * Sentence terminators in the output *)

Section Terminators.

Implicit Types (s v e pre post : bytes) (p q : nat) (c : byte).

Lemma occurs_in_split e v : occurs_in e v ↔ ∃ pre post, v = pre ++ e ++ post.
Proof.
  split.
  - intros (p & pre & post & -> & _). by exists pre, post.
  - intros (pre & post & ->). by exists (length pre), pre, post.
Qed.

Lemma occurs_in_prefix e v s : v `prefix_of` s → occurs_in e v → occurs_in e s.
Proof.
  intros [k ->]. rewrite !occurs_in_split. intros (pre & post & ->).
  exists pre, (post ++ k). by rewrite <- !app_assoc.
Qed.

Lemma occurs_in_suffix e v s : v `suffix_of` s → occurs_in e v → occurs_in e s.
Proof.
  intros [k ->]. rewrite !occurs_in_split. intros (pre & post & ->).
  exists (k ++ pre), post. by rewrite <- !app_assoc.
Qed.

(** An occurrence of a solid mark in the normalized text comes from an
    occurrence in the text as it is after the cut. *)
Lemma normalize_occurs_in e s :
  solid e → occurs_in e (normalize_one_sentence s) →
  occurs_in e (cut_sentence (remove_cr s)).
Proof.
  intros He. unfold normalize_one_sentence.
  rewrite occurs_in_split. intros (pre & post & H).
  apply (collapse_occurrence e He) in H as (pre1 & post1 & H & _).
  apply fmap_app_inv in H as (l1 & l2 & -> & H & Hv). symmetry in H.
  apply fmap_app_inv in H as (l3 & l4 & He' & -> & ->).
  destruct He as [_ Hws]. rewrite He' in Hws.
  rewrite (blank_solid_inv l3 Hws) in He'. subst l3.
  eapply occurs_in_suffix; [apply strip_front_suffix|].
  eapply occurs_in_prefix; [apply strip_back_prefix|].
  rewrite Hv. apply occurs_in_split. by exists l1, l4.
Qed.

Lemma normalize_occurs_in_cr_free e s :
  solid e → Str.CR ∉ s → occurs_in e (normalize_one_sentence s) →
  occurs_in e s.
Proof.
  intros He Hcr H%normalize_occurs_in; [|done].
  rewrite remove_cr_id in H by done.
  eapply occurs_in_prefix; [apply cut_sentence_prefix | done].
Qed.

Lemma strip_front_keeps e pre :
  solid e → ∃ pre', strip_front (pre ++ e) = pre' ++ e.
Proof.
  intros He. induction pre as [|c pre IH].
  - exists []. apply strip_front_id. by apply (solid_no_ws_front e []) in He;
      rewrite app_nil_r in He.
  - simpl. destruct (is_ws c); [done|]. by exists (c :: pre).
Qed.

Lemma solid_no_ws_back pre e : solid e → no_ws_back (pre ++ e).
Proof.
  intros [Hne He] c Hc.
  destruct (last e) as [x|] eqn:L; [|by apply last_None in L].
  apply last_Some in L as [l ->]. rewrite app_assoc, last_snoc in Hc.
  injection Hc as <-. apply Forall_app in He as [_ He].
  by apply Forall_cons in He as [He _].
Qed.

Lemma blank_solid_id e : Forall (λ c, is_ws c = false) e → blank <$> e = e.
Proof.
  induction 1 as [|c e Hc _ IH]; [done|]. rewrite fmap_cons, IH. f_equal.
  apply blank_solid. by rewrite is_ws_blank.
Qed.

Lemma collapse_app_solid e : Forall (λ c, is_ws c = false) e →
  ∀ b v, collapse b (v ++ e) = collapse b v ++ e.
Proof.
  intros He. assert (∀ b, collapse b e = e) as Hcol.
  { induction He as [|c e Hc _ IH]; intros b; [done|].
    rewrite collapse_nonspace by by apply is_ws_false_sp. by rewrite IH. }
  intros b v. revert b. induction v as [|c v IH]; intros b; simpl.
  - apply Hcol.
  - destruct (Byte.eqb c Str.SP), b; by rewrite IH.
Qed.

Lemma normalize_keeps_mark s e p :
  e ∈ ends → occurs_at e (remove_cr s) p →
  find_first_sentence_end_zh (remove_cr s) = Some (p + length e) →
  e `suffix_of` normalize_one_sentence s.
Proof.
  intros He Ho Hq. pose proof (ends_solid e He) as Hsolid.
  pose proof (occurs_at_bound _ _ _ Ho) as Hb.
  unfold normalize_one_sentence, cut_sentence. rewrite Hq.
  rewrite resize_le by done.
  destruct Ho as (pre & post & Hs & <-). rewrite Hs.
  rewrite app_assoc, take_app_length' by (by rewrite length_app).
  destruct (strip_front_keeps e pre Hsolid) as [pre' ->].
  rewrite strip_back_id by by apply solid_no_ws_back.
  destruct Hsolid as [_ Hws].
  rewrite fmap_app, (blank_solid_id e Hws), (collapse_app_solid e Hws).
  by eexists.
Qed.

Lemma ends_in_main_stops e : e ∈ ends → e ∈ main_stops ∧ e ≠ [].
Proof.
  unfold ends. rewrite !elem_of_cons, elem_of_nil.
  intros [->|[->|[->|[]]]]; (split; [|done]);
    unfold main_stops; rewrite !elem_of_cons; tauto.
Qed.

Lemma trimmed_no_mark b e :
  e ∈ ends → ¬ occurs_in e (trim_at_stop_first_occurrence b main_stops).
Proof.
  intros [He Hne]%ends_in_main_stops [p Hp].
  apply (no_stop_after_trim b main_stops p). by exists e.
Qed.

End Terminators.

(** X26: the normalized text ends with a sentence terminator exactly when
    the first sentence end of the text, carriage returns removed, is the
    end of a terminator: the mark is kept, and a text cut at a line break
    or not cut at all has no terminator at its end. *)
Theorem normalize_ends_with_mark_iff (s : bytes) :
  (∃ e, e ∈ ends ∧ e `suffix_of` normalize_one_sentence s)
  ↔ ∃ q, find_first_sentence_end_zh (remove_cr s) = Some q
         ∧ ends_at ends (remove_cr s) q.
Proof.
  split.
  - intros (e & He & [k Hk]).
    assert (occurs_in e (cut_sentence (remove_cr s))) as Hin.
    { apply normalize_occurs_in; [by apply ends_solid|].
      apply occurs_in_split. exists k, []. by rewrite app_nil_r. }
    destruct Hin as (p & Hp). unfold cut_sentence in Hp.
    pose proof (first_sentence_end_least (remove_cr s)) as Hl.
    destruct (find_first_sentence_end_zh (remove_cr s)) as [q|].
    + destruct Hl as [Hq Hmin]. exists q. split; [done|].
      rewrite resize_le in Hp by by apply sentence_end_bound.
      pose proof (occurs_at_bound _ _ _ Hp) as Hb. rewrite length_take in Hb.
      apply occurs_at_take in Hp.
      assert (q ≤ p + length e).
      { apply Hmin. left. by exists e, p. }
      exists e, p. split; [done|]. split; [done | lia].
    + exfalso. apply (Hl (p + length e)). left. by exists e, p.
  - intros (q & Hq & e & p & He & Ho & ->). exists e. split; [done|].
    by eapply normalize_keeps_mark.
Qed.

(** X27: with the stop list of [main], which holds the three sentence
    terminators, the text printed for a buffer without carriage return
    holds no sentence terminator at all. *)
Theorem main_output_has_no_terminator (key b : bytes) :
  Str.CR ∉ b →
  Forall (λ e, ¬ occurs_in e (postprocess main_stops key b)) ends.
Proof.
  intros Hcr. apply Forall_forall. intros e He.
  pose proof (ends_solid e He) as Hsolid.
  pose proof (trimmed_no_mark b e He) as Ht.
  assert (¬ occurs_in e (normalize_one_sentence
                           (trim_at_stop_first_occurrence b main_stops)))
    as H2.
  { intros H. apply Ht. apply normalize_occurs_in_cr_free in H; [done..|].
    intros Hin. apply Hcr. eapply elem_of_prefix; [done | apply trim_prefix]. }
  unfold postprocess. destruct (Str.find _ key) as [p|]; [|done].
  destruct (0 <? p); [|done].
  intros H. apply H2.
  apply normalize_occurs_in_cr_free in H; [|done|].
  - eapply occurs_in_suffix; [apply suffix_drop | done].
  - apply not_elem_of_drop, normalize_no_cr.
Qed.

Lemma main_output_has_no_terminator_witness :
  Forall (λ e, ¬ occurs_in e
                   (postprocess main_stops anchor_key (lit "定义。后面")))
    ends.
Proof.
  apply (main_output_has_no_terminator anchor_key (lit "定义。后面")).
  vm_compute. intros H.
  repeat (apply elem_of_cons in H as [H|H]; [discriminate H|]).
  by apply elem_of_nil in H.
Defined.
